(** * vamship/ssh-utils: RemoteClient and SshClient

    A shallow embedding of [src/remote-client.js] (connection configuration
    and private-key caching) and of [src/ssh-client.js] (sequential command
    execution over an ssh2 session), with the properties the specification
    states about them.

    JavaScript is dynamically typed and event driven, so:
    - values that cross the public entry points are a small [Value] type with
      JavaScript's truthiness;
    - promises are a three-state [Promise] value, and [resolve]/[reject] on a
      settled promise do nothing;
    - each event handler of the source is one case of a [step] function over
      an explicit state that holds the closure variables of the source
      ([results], [_finishMethod], [callNext]) and a log of the calls made on
      the ssh2 client ([exec], [connect], [end]). *)

From Stdlib Require Import ZArith Lia.
From stdpp Require Import base list strings.

#[local] Set Warnings "-clear-no-such-hyp".

(** ** JavaScript values and errors *)

#[local] Set Warnings "-register-all".
Inductive Value : Type :=
| VUndefined
| VNull
| VBool (b : bool)
| VNum (n : Z)
| VStr (s : string)
| VBuf (bytes : list Byte.byte)
| VArr (items : list Value)
| VObj.
#[local] Set Warnings "register-all".

(** [if (v)] in JavaScript.  Numbers are kept integral here, so NaN is not a
    case; Buffers, arrays and objects are always truthy. *)
Definition truthy (v : Value) : bool :=
  match v with
  | VUndefined | VNull => false
  | VBool b => b
  | VNum n => negb (n =? 0)%Z
  | VStr s => negb (String.eqb s "")
  | VBuf _ | VArr _ | VObj => true
  end.

Inductive JsError : Type :=
| ArgError (message : string)
| Error (message : string).

(** A bluebird promise as seen by its consumer. *)
Inductive Promise (A : Type) : Type :=
| Pending
| Resolved (value : A)
| Rejected (reason : JsError).
Arguments Pending {A}.
Arguments Resolved {A} value.
Arguments Rejected {A} reason.

(** [resolve(v)] and [reject(e)] only act on a pending promise. *)
Definition resolve {A} (v : A) (p : Promise A) : Promise A :=
  match p with Pending => Resolved v | _ => p end.
Definition reject {A} (e : JsError) (p : Promise A) : Promise A :=
  match p with Pending => Rejected e | _ => p end.

Definition unresolved {A} (p : Promise A) : Prop :=
  match p with Resolved _ => False | _ => True end.

Definition settled {A} (p : Promise A) : Prop :=
  match p with Pending => False | _ => True end.

(** ** The argument validator

    [@vamship/arg-utils] is an external dependency.  Its checks are taken by
    their documented contract: [checkString(arg, minLength)] holds for a
    string of at least [minLength] characters, [checkNumber(arg, min)] for a
    number not below [min], [checkArray(arg)] for an array.  Called with an
    error message, a failed check throws an [ArgError] carrying it. *)
Module ArgValidator.

Definition checkString (arg : Value) (minLength : nat) : bool :=
  match arg with
  | VStr s => bool_decide (minLength ≤ String.length s)
  | _ => false
  end.

Definition checkNumber (arg : Value) (min : Z) : bool :=
  match arg with
  | VNum n => bool_decide (min ≤ n)%Z
  | _ => false
  end.

Definition checkArray (arg : Value) : bool :=
  match arg with
  | VArr _ => true
  | _ => false
  end.

End ArgValidator.

(** ** remote-client.js *)
Module RemoteClient.
Import ArgValidator.

(** The [options] object handed to the constructor. *)
Record ClientConfig : Type := {
  cfg_host : Value;
  cfg_port : Value;
  cfg_username : Value;
  cfg_password : Value;
  cfg_privateKey : Value
}.

(** The instance fields set by the constructor. *)
Record t : Type := {
  _host : Value;
  _port : Value;
  _username : Value;
  _password : Value;
  _privateKey : Value;
  _privateKeyData : Value
}.

Definition set_privateKeyData (this : t) (data : Value) : t :=
  {| _host := _host this; _port := _port this; _username := _username this;
     _password := _password this; _privateKey := _privateKey this;
     _privateKeyData := data |}.

Definition is_undefined (v : Value) : bool :=
  match v with VUndefined => true | _ => false end.

(** [constructor(options)]: the result is either the thrown [ArgError] or
    the new instance. *)
Definition new (options : ClientConfig) : JsError + t :=
  if negb (checkString (cfg_host options) 1) then
    inl (ArgError "Invalid host (options.host)")
  else if negb (checkString (cfg_username options) 1) then
    inl (ArgError "Invalid username (options.username)")
  else
    let port :=
      if negb (checkNumber (cfg_port options) 1) then VNum 22
      else cfg_port options in
    let privateKey :=
      if negb (checkString (cfg_privateKey options) 1) then VUndefined
      else cfg_privateKey options in
    let password :=
      if negb (checkString (cfg_password options) 1) then VUndefined
      else cfg_password options in
    if is_undefined privateKey && is_undefined password then
      inl (ArgError "Invalid password (options.password) or private key (options.privateKey). Must provide at least one.")
    else
      inr {| _host := cfg_host options; _port := port;
             _username := cfg_username options; _password := password;
             _privateKey := privateKey; _privateKeyData := VUndefined |}.

(** The object resolved by [getConnectionOptions]; a property that was
    never assigned reads [VUndefined]. *)
Record ConnectionOptions : Type := {
  host : Value;
  port : Value;
  username : Value;
  password : Value;
  passphrase : Value;
  privateKey : Value
}.

Definition connectionOptions (this : t) : ConnectionOptions :=
  {| host := _host this; port := _port this; username := _username this;
     password := VUndefined; passphrase := VUndefined;
     privateKey := VUndefined |}.

Definition with_password (o : ConnectionOptions) (v : Value) : ConnectionOptions :=
  {| host := host o; port := port o; username := username o;
     password := v; passphrase := passphrase o; privateKey := privateKey o |}.

Definition with_key (o : ConnectionOptions) (pass data : Value) : ConnectionOptions :=
  {| host := host o; port := port o; username := username o;
     password := password o; passphrase := pass; privateKey := data |}.

(** What [fs.readFile] hands to its callback: [(err)] or [(null, data)]. *)
Inductive ReadResult : Type :=
| ReadError (err : JsError)
| ReadData (data : list Byte.byte).

(** The synchronous part of [getConnectionOptions]: either the promise can
    settle without storage, or one [fs.readFile(path, cb)] is issued. *)
Inductive Started : Type :=
| Ready (opts : ConnectionOptions)
| Reading (path : Value).

Definition getConnectionOptions_start (this : t) : Started :=
  if negb (truthy (_privateKey this)) then
    Ready (with_password (connectionOptions this) (_password this))
  else if truthy (_privateKeyData this) then
    Ready (with_key (connectionOptions this) (_password this) (_privateKeyData this))
  else
    Reading (_privateKey this).

(** The [readFile] callback.  On an error the promise is rejected first;
    the two statements after the [if] still run, with [data] undefined,
    and the later [resolve] finds the promise settled. *)
Definition readFile_callback (this : t) (r : ReadResult)
  : t * Promise ConnectionOptions :=
  match r with
  | ReadError err =>
      (set_privateKeyData this VUndefined, Rejected err)
  | ReadData data =>
      (set_privateKeyData this (VBuf data),
       Resolved (with_key (connectionOptions this) (_password this) (VBuf data)))
  end.

(** Calls made one after the other, each awaited before the next, against
    a storage whose [n]-th read of [path] yields [disk n path].  The list
    [reads] logs the paths handed to [fs.readFile] so far. *)
Section Sequential.
Variable disk : nat → Value → ReadResult.

Definition getConnectionOptions (this : t) (reads : list Value)
  : t * list Value * Promise ConnectionOptions :=
  match getConnectionOptions_start this with
  | Ready opts => (this, reads, Resolved opts)
  | Reading path =>
      let '(this', p) := readFile_callback this (disk (length reads) path) in
      (this', reads ++ [path], p)
  end.

(** [n] further calls; the promises they return, oldest first. *)
Fixpoint getConnectionOptions_times (n : nat) (this : t) (reads : list Value)
  : t * list Value * list (Promise ConnectionOptions) :=
  match n with
  | O => (this, reads, [])
  | S n' =>
      let '(this1, reads1, p) := getConnectionOptions this reads in
      let '(this2, reads2, ps) := getConnectionOptions_times n' this1 reads1 in
      (this2, reads2, p :: ps)
  end.

(** [this] is the instance [c] up to its key cache, and the cache is
    empty or holds the bytes that one of the reads logged in [reads]
    returned. *)
Definition cache_of (c this : t) (reads : list Value) : Prop :=
  this = set_privateKeyData c (_privateKeyData this) ∧
  (_privateKeyData this = VUndefined ∨
   ∃ data k, k < length reads ∧ disk k (_privateKey c) = ReadData data ∧
             _privateKeyData this = VBuf data).
End Sequential.

(** A non-empty string. *)
Definition is_text (v : Value) : Prop := ∃ s, v = VStr s ∧ s ≠ "".

End RemoteClient.

(** ** ssh-client.js *)
Module SshClient.
Import ArgValidator.

(** *** Data *)

(** [ExecutionResult]: one per command whose [exec] callback ran.
    [exitCode] reads [VUndefined] and [error] reads [None] until they are
    assigned. *)
Record ExecutionResult : Type := {
  command : Value;
  success : bool;
  stdout : string;
  stderr : string;
  exitCode : Value;
  error : option JsError
}.

(** [SshExecutionResults]: the object [run] resolves with. *)
Record SshExecutionResults : Type := {
  commandCount : nat;
  successCount : nat;
  failureCount : nat;
  results : list ExecutionResult
}.

(** The fresh [result] object of the [exec] callback. *)
Definition new_result (cmd : Value) : ExecutionResult :=
  {| command := cmd; success := true; stdout := ""; stderr := "";
     exitCode := VUndefined; error := None |}.

(** [result.success = false; result.error = err]. *)
Definition fail_with (err : JsError) (r : ExecutionResult) : ExecutionResult :=
  {| command := command r; success := false; stdout := stdout r;
     stderr := stderr r; exitCode := exitCode r; error := Some err |}.

Definition set_exitCode (code : Value) (r : ExecutionResult) : ExecutionResult :=
  {| command := command r; success := success r; stdout := stdout r;
     stderr := stderr r; exitCode := code; error := error r |}.

(** [result.stdout += data] and [result.stderr += data]. *)
Definition append_stdout (data : string) (r : ExecutionResult) : ExecutionResult :=
  {| command := command r; success := success r; stdout := stdout r +:+ data;
     stderr := stderr r; exitCode := exitCode r; error := error r |}.

Definition append_stderr (data : string) (r : ExecutionResult) : ExecutionResult :=
  {| command := command r; success := success r; stdout := stdout r;
     stderr := stderr r +:+ data; exitCode := exitCode r; error := error r |}.

Definition nonZeroExit : JsError := Error "Program exited with non zero exit code".

(** [code !== 0]. *)
Definition is_zero (code : Value) : bool :=
  match code with VNum 0 => true | _ => false end.

(** The [forEach] of [run]: one counter is incremented per result. *)
Definition count_result (acc : SshExecutionResults) (r : ExecutionResult)
  : SshExecutionResults :=
  if success r then
    {| commandCount := commandCount acc; successCount := S (successCount acc);
       failureCount := failureCount acc; results := results acc |}
  else
    {| commandCount := commandCount acc; successCount := successCount acc;
       failureCount := S (failureCount acc); results := results acc |}.

Definition tally (rs : list ExecutionResult) (acc : SshExecutionResults)
  : SshExecutionResults :=
  fold_left count_result rs acc.

Definition with_results (rs : list ExecutionResult) (acc : SshExecutionResults)
  : SshExecutionResults :=
  {| commandCount := commandCount acc; successCount := successCount acc;
     failureCount := failureCount acc; results := rs |}.

(** *** State of one [run] call *)

(** Where the call stands.  [Next i] and [Draining] have promise reactions
    queued that the next [Tick] runs. *)
Inductive Phase : Type :=
| LoadingKey          (* getConnectionOptions waits for fs.readFile *)
| KeyFailed           (* getConnectionOptions rejected; no client exists *)
| Connecting          (* client constructed, connect(connOpts) called *)
| ConnectFailed       (* 'error' arrived before 'ready' *)
| Next (i : nat)      (* mapSeries is about to visit commands[i] *)
| Executing (i : nat) (* the promise of commands[i] is pending *)
| Draining            (* a command promise was rejected *)
| Closed.             (* the then/finally reactions of run have run *)

(** What the closures created by the executor of one command capture:
    the position of the command (which names its [resolve] and [reject]),
    the [command] itself and the constant [callNext]. *)
Record Executor : Type := {
  index : nat;
  exec_command : Value;
  callNext : bool
}.

(** What the transport still owes for the [exec] in flight: its callback
    ([Starting e]), or the events of its stream ([Open e r], with [r] the
    position in [results] of the [result] object that the stream handlers
    captured). *)
Inductive Channel : Type :=
| Idle
| Starting (e : Executor)
| Open (e : Executor) (r : nat).

Record State : Type := {
  this : RemoteClient.t;
  commands : list Value;
  phase : Phase;
  channel : Channel;
  (* closure variables of _runCommandSet *)
  cmd_results : list ExecutionResult;
  _finishMethod : option nat;   (* [Some i]: the closure resolving promise i *)
  (* closure variables of run *)
  execResult : SshExecutionResults;
  returned : Promise SshExecutionResults;
  (* calls made so far on fs and on the ssh2 client *)
  readFile_calls : list Value;
  connect_calls : list RemoteClient.ConnectionOptions;
  exec_calls : list Value;
  end_calls : nat
}.

Definition set_this (x : RemoteClient.t) (s : State) : State :=
  {| this := x; commands := commands s; phase := phase s; channel := channel s;
     cmd_results := cmd_results s; _finishMethod := _finishMethod s;
     execResult := execResult s; returned := returned s;
     readFile_calls := readFile_calls s; connect_calls := connect_calls s;
     exec_calls := exec_calls s; end_calls := end_calls s |}.

Definition set_phase (x : Phase) (s : State) : State :=
  {| this := this s; commands := commands s; phase := x; channel := channel s;
     cmd_results := cmd_results s; _finishMethod := _finishMethod s;
     execResult := execResult s; returned := returned s;
     readFile_calls := readFile_calls s; connect_calls := connect_calls s;
     exec_calls := exec_calls s; end_calls := end_calls s |}.

Definition set_channel (x : Channel) (s : State) : State :=
  {| this := this s; commands := commands s; phase := phase s; channel := x;
     cmd_results := cmd_results s; _finishMethod := _finishMethod s;
     execResult := execResult s; returned := returned s;
     readFile_calls := readFile_calls s; connect_calls := connect_calls s;
     exec_calls := exec_calls s; end_calls := end_calls s |}.

Definition set_results (x : list ExecutionResult) (s : State) : State :=
  {| this := this s; commands := commands s; phase := phase s; channel := channel s;
     cmd_results := x; _finishMethod := _finishMethod s;
     execResult := execResult s; returned := returned s;
     readFile_calls := readFile_calls s; connect_calls := connect_calls s;
     exec_calls := exec_calls s; end_calls := end_calls s |}.

Definition set_finishMethod (x : option nat) (s : State) : State :=
  {| this := this s; commands := commands s; phase := phase s; channel := channel s;
     cmd_results := cmd_results s; _finishMethod := x;
     execResult := execResult s; returned := returned s;
     readFile_calls := readFile_calls s; connect_calls := connect_calls s;
     exec_calls := exec_calls s; end_calls := end_calls s |}.

Definition set_execResult (x : SshExecutionResults) (s : State) : State :=
  {| this := this s; commands := commands s; phase := phase s; channel := channel s;
     cmd_results := cmd_results s; _finishMethod := _finishMethod s;
     execResult := x; returned := returned s;
     readFile_calls := readFile_calls s; connect_calls := connect_calls s;
     exec_calls := exec_calls s; end_calls := end_calls s |}.

Definition set_returned (x : Promise SshExecutionResults) (s : State) : State :=
  {| this := this s; commands := commands s; phase := phase s; channel := channel s;
     cmd_results := cmd_results s; _finishMethod := _finishMethod s;
     execResult := execResult s; returned := x;
     readFile_calls := readFile_calls s; connect_calls := connect_calls s;
     exec_calls := exec_calls s; end_calls := end_calls s |}.

(** [_fs.readFile(path, cb)]. *)
Definition call_readFile (path : Value) (s : State) : State :=
  {| this := this s; commands := commands s; phase := phase s; channel := channel s;
     cmd_results := cmd_results s; _finishMethod := _finishMethod s;
     execResult := execResult s; returned := returned s;
     readFile_calls := readFile_calls s ++ [path]; connect_calls := connect_calls s;
     exec_calls := exec_calls s; end_calls := end_calls s |}.

(** [new _ssh2.Client()] followed by [.connect(connOpts)]. *)
Definition call_connect (o : RemoteClient.ConnectionOptions) (s : State) : State :=
  {| this := this s; commands := commands s; phase := phase s; channel := channel s;
     cmd_results := cmd_results s; _finishMethod := _finishMethod s;
     execResult := execResult s; returned := returned s;
     readFile_calls := readFile_calls s; connect_calls := connect_calls s ++ [o];
     exec_calls := exec_calls s; end_calls := end_calls s |}.

(** [client.exec(command, cb)]. *)
Definition call_exec (cmd : Value) (s : State) : State :=
  {| this := this s; commands := commands s; phase := phase s; channel := channel s;
     cmd_results := cmd_results s; _finishMethod := _finishMethod s;
     execResult := execResult s; returned := returned s;
     readFile_calls := readFile_calls s; connect_calls := connect_calls s;
     exec_calls := exec_calls s ++ [cmd]; end_calls := end_calls s |}.

(** [client.end()]. *)
Definition call_end (s : State) : State :=
  {| this := this s; commands := commands s; phase := phase s; channel := channel s;
     cmd_results := cmd_results s; _finishMethod := _finishMethod s;
     execResult := execResult s; returned := returned s;
     readFile_calls := readFile_calls s; connect_calls := connect_calls s;
     exec_calls := exec_calls s; end_calls := S (end_calls s) |}.

(** *** [run], up to the first suspension *)

Definition array_items (v : Value) : list Value :=
  match v with VArr items => items | _ => [] end.

(** The variables as [run] and [_runCommandSet] create them. *)
Definition initial_state (self : RemoteClient.t) (cmds : list Value) : State :=
  {| this := self; commands := cmds; phase := LoadingKey; channel := Idle;
     cmd_results := []; _finishMethod := None;
     execResult := {| commandCount := length cmds; successCount := 0;
                      failureCount := 0; results := [] |};
     returned := Pending;
     readFile_calls := []; connect_calls := []; exec_calls := [];
     end_calls := 0 |}.

(** [run(commands)].  [inl] is the [ArgError] thrown by [checkArray];
    otherwise the state is the one in which the call first waits: for
    [fs.readFile] when a key has to be loaded, else for the client that
    the [then] of [getConnectionOptions] constructs and connects. *)
Definition run (self : RemoteClient.t) (commands : Value) : JsError + State :=
  let commands :=
    if checkString commands 1 then VArr [commands] else commands in
  if negb (checkArray commands) then
    inl (ArgError "Invalid command(s) (arg #1)")
  else
    let s0 := initial_state self (array_items commands) in
    match RemoteClient.getConnectionOptions_start self with
    | RemoteClient.Ready connOpts =>
        inr (call_connect connOpts (set_phase Connecting s0))
    | RemoteClient.Reading path =>
        inr (call_readFile path s0)
    end.

(** *** Events and their handlers *)

(** Everything that can wake the call up.  [Tick] is the scheduler running
    the promise reactions that are queued; the others are callbacks invoked
    by [fs] or by the ssh2 client and its stream. *)
Inductive Event : Type :=
| ReadFileDone (r : RemoteClient.ReadResult)
| ClientReady
| ClientError (err : JsError)
| ClientContinue
| ExecCallback (err : option JsError)   (* [(err)] or [(null, stream)] *)
| StreamData (data : string)
| StderrData (data : string)
| StreamClose (code : Value)
| Tick.

(** [resolve] and [reject] of the promise created for [commands[i]]: they
    act only while that promise is pending, and then queue the reaction of
    [mapSeries]. *)
Definition resolve_command (i : nat) (s : State) : State :=
  match phase s with
  | Executing j => if Nat.eqb i j then set_phase (Next (S i)) s else s
  | _ => s
  end.

Definition reject_command (i : nat) (s : State) : State :=
  match phase s with
  | Executing j => if Nat.eqb i j then set_phase Draining s else s
  | _ => s
  end.

(** A client exists from [connect] on; only then can it emit events. *)
Definition has_client (s : State) : bool :=
  match phase s with
  | LoadingKey | KeyFailed => false
  | _ => true
  end.

(** The callback given to [fs.readFile], then the [then] of [run]. *)
Definition on_readFile (r : RemoteClient.ReadResult) (s : State) : State :=
  let '(self, p) := RemoteClient.readFile_callback (this s) r in
  match p with
  | Resolved connOpts =>
      call_connect connOpts (set_phase Connecting (set_this self s))
  | Rejected err =>
      set_returned (reject err (returned s)) (set_phase KeyFailed (set_this self s))
  | Pending => set_this self s
  end.

(** [client.on('ready', ...)]: [_runCommandSet] is entered, which queues
    the first reaction of [mapSeries]. *)
Definition on_ready (s : State) : State := set_phase (Next 0) s.

(** [client.on('error', ...)]: [client.end(); reject(err)]. *)
Definition on_error (err : JsError) (s : State) : State :=
  let s := set_returned (reject err (returned s)) (call_end s) in
  match phase s with
  | Connecting => set_phase ConnectFailed s
  | _ => s
  end.

(** [client.on('continue', ...)]: [if (_finishMethod) _finishMethod()],
    the method being [resolve(result); _finishMethod = undefined]. *)
Definition on_continue (s : State) : State :=
  match _finishMethod s with
  | Some i => set_finishMethod None (resolve_command i s)
  | None => s
  end.

(** The callback given to [client.exec] by executor [e]. *)
Definition on_exec_callback (e : Executor) (err : option JsError) (s : State) : State :=
  let r := length (cmd_results s) in
  let s := set_results (cmd_results s ++ [new_result (exec_command e)]) s in
  match err with
  | Some err =>
      reject_command (index e)
        (set_channel Idle (set_results (alter (fail_with err) r (cmd_results s)) s))
  | None => set_channel (Open e r) s
  end.

Definition on_data (r : nat) (data : string) (s : State) : State :=
  set_results (alter (append_stdout data) r (cmd_results s)) s.

Definition on_stderr_data (r : nat) (data : string) (s : State) : State :=
  set_results (alter (append_stderr data) r (cmd_results s)) s.

(** [stream.on('close', ...)] of executor [e]. *)
Definition on_close (e : Executor) (r : nat) (code : Value) (s : State) : State :=
  let s := set_channel Idle
             (set_results (alter (set_exitCode code) r (cmd_results s)) s) in
  if negb (is_zero code) then
    reject_command (index e)
      (set_results (alter (fail_with nonZeroExit) r (cmd_results s)) s)
  else if callNext e then
    resolve_command (index e) s
  else
    set_finishMethod (Some (index e)) s.

(** The [then] and [finally] of [run], once [_runCommandSet] has settled
    (its [catch] turns a rejection into the same [results]). *)
Definition finish (s : State) : State :=
  let summary := with_results (cmd_results s) (tally (cmd_results s) (execResult s)) in
  call_end
    (set_phase Closed
       (set_returned (resolve summary (returned s)) (set_execResult summary s))).

Section Transport.

(** The boolean that the [n]-th call of [client.exec] returns. *)
Variable exec_returns : nat → bool.

(** The executor of the promise for [commands[i]]:
    [_finishMethod = undefined; const callNext = client.exec(command, cb)]. *)
Definition execute (i : nat) (cmd : Value) (s : State) : State :=
  let e := {| index := i; exec_command := cmd;
              callNext := exec_returns (length (exec_calls s)) |} in
  set_channel (Starting e)
    (set_phase (Executing i) (call_exec cmd (set_finishMethod None s))).

Definition on_tick (s : State) : State :=
  match phase s with
  | Next i =>
      match commands s !! i with
      | Some cmd => execute i cmd s
      | None => finish s
      end
  | Draining => finish s
  | _ => s
  end.

(** One event.  [None] means the event cannot occur in that state: [fs]
    calls back once per read, the client emits nothing before it exists
    and ['ready'] once, [exec] calls back once, and a stream emits data
    and then a single ['close']. *)
Definition step (s : State) (ev : Event) : option State :=
  match ev with
  | ReadFileDone r =>
      match phase s with LoadingKey => Some (on_readFile r s) | _ => None end
  | ClientReady =>
      match phase s with Connecting => Some (on_ready s) | _ => None end
  | ClientError err =>
      if has_client s then Some (on_error err s) else None
  | ClientContinue =>
      if has_client s then Some (on_continue s) else None
  | ExecCallback err =>
      match channel s with
      | Starting e => Some (on_exec_callback e err s)
      | _ => None
      end
  | StreamData data =>
      match channel s with Open _ r => Some (on_data r data s) | _ => None end
  | StderrData data =>
      match channel s with Open _ r => Some (on_stderr_data r data s) | _ => None end
  | StreamClose code =>
      match channel s with Open e r => Some (on_close e r code s) | _ => None end
  | Tick => Some (on_tick s)
  end.

(** A whole sequence of events, from state [s]. *)
Fixpoint run_events (s : State) (evs : list Event) : option State :=
  match evs with
  | [] => Some s
  | ev :: evs' =>
      match step s ev with
      | Some s' => run_events s' evs'
      | None => None
      end
  end.

(** *** What holds in every state a [run] call can be in *)

Definition succeeded (r : ExecutionResult) : Prop := success r = true.
Definition failed (r : ExecutionResult) : Prop := success r = false.

(** Successes followed by exactly one failure. *)
Definition one_failure (rs : list ExecutionResult) : Prop :=
  ∃ ok f, rs = ok ++ [f] ∧ Forall succeeded ok ∧ failed f.

Definition fresh_summary (n : nat) : SshExecutionResults :=
  {| commandCount := n; successCount := 0; failureCount := 0; results := [] |}.

(** The summary that a list of results amounts to. *)
Definition summary_of (n : nat) (rs : list ExecutionResult) : SshExecutionResults :=
  {| commandCount := n;
     successCount := length (filter (λ r, success r = true) rs);
     failureCount := length (filter (λ r, success r = false) rs);
     results := rs |}.

(** Before the [then] of [run] has run, [execResult] is as created and
    the returned promise is not resolved. *)
Definition untallied (s : State) : Prop :=
  execResult s = fresh_summary (length (commands s)) ∧
  unresolved (returned s).

(** Before ['ready'] nothing has been submitted or recorded. *)
Definition pristine (s : State) : Prop :=
  cmd_results s = [] ∧ exec_calls s = [] ∧ channel s = Idle ∧
  _finishMethod s = None ∧ untallied s.

Definition phase_inv (s : State) : Prop :=
  match phase s with
  | LoadingKey =>
      pristine s ∧ returned s = Pending ∧ end_calls s = 0 ∧
      connect_calls s = []
  | KeyFailed =>
      pristine s ∧ end_calls s = 0 ∧ connect_calls s = []
  | Connecting =>
      pristine s ∧ returned s = Pending ∧ end_calls s = 0 ∧
      length (connect_calls s) = 1
  | ConnectFailed => pristine s
  | Next i =>
      length (cmd_results s) = i ∧ length (exec_calls s) = i ∧
      Forall succeeded (cmd_results s) ∧ channel s = Idle ∧
      _finishMethod s = None ∧ untallied s
  | Executing i =>
      length (exec_calls s) = S i ∧ Forall succeeded (cmd_results s) ∧
      untallied s ∧
      match channel s with
      | Starting e =>
          index e = i ∧ commands s !! i = Some (exec_command e) ∧
          callNext e = exec_returns i ∧
          length (cmd_results s) = i ∧ _finishMethod s = None
      | Open e r =>
          index e = i ∧ r = i ∧ callNext e = exec_returns i ∧
          length (cmd_results s) = S i ∧ _finishMethod s = None
      | Idle =>
          length (cmd_results s) = S i ∧ _finishMethod s = Some i ∧
          exec_returns i = false
      end
  | Draining =>
      channel s = Idle ∧ _finishMethod s = None ∧
      length (exec_calls s) = length (cmd_results s) ∧
      one_failure (cmd_results s) ∧ untallied s
  | Closed =>
      channel s = Idle ∧ _finishMethod s = None ∧
      length (exec_calls s) = length (cmd_results s) ∧
      ((Forall succeeded (cmd_results s) ∧
        length (cmd_results s) = length (commands s)) ∨
       one_failure (cmd_results s)) ∧
      execResult s = summary_of (length (commands s)) (cmd_results s) ∧
      settled (returned s) ∧
      ∀ v, returned s = Resolved v → v = execResult s
  end.

Record Inv (s : State) : Prop := {
  inv_exec : exec_calls s = take (length (exec_calls s)) (commands s);
  inv_cmds : command <$> cmd_results s
             = take (length (cmd_results s)) (commands s);
  inv_phase : phase_inv s
}.

(** A state is reachable from [s0] when some sequence of events leads
    from [s0] to it. *)
Definition reachable (s0 s : State) : Prop :=
  ∃ evs, run_events s0 evs = Some s.

(** *** A transport that serves every command

    What the remote side does with one command: [exec] fails to start it,
    or it runs, writes chunks to its two output streams and exits. *)
Inductive Behaviour : Type :=
| FailsToStart (err : JsError)
| Runs (out err : list string) (code : Value).

Definition stream_events (out err : list string) (code : Value) : list Event :=
  (StreamData <$> out) ++ (StderrData <$> err) ++ [StreamClose code].

(** The events of a session that serves the commands from position [i]
    on as [script] says, each [Tick] standing where the scheduler runs
    the queued reactions.  A ['continue'] is emitted after a command
    whose [exec] returned [false]. *)
Fixpoint session_events (script : list Behaviour) (i : nat) : list Event :=
  match script with
  | [] => [Tick]
  | b :: script' =>
      Tick ::
      match b with
      | FailsToStart err => [ExecCallback (Some err); Tick]
      | Runs out err code =>
          ExecCallback None :: stream_events out err code ++
          (if is_zero code then
             (if exec_returns i then [] else [ClientContinue]) ++
             session_events script' (S i)
           else [Tick])
      end
  end.

End Transport.

(** The text accumulated from chunks by repeated [+=]. *)
Definition received (chunks : list string) : string :=
  fold_left String.append chunks "".

(** The result a command ends with under a given behaviour. *)
Definition result_of (cmd : Value) (b : Behaviour) : ExecutionResult :=
  match b with
  | FailsToStart err => fail_with err (new_result cmd)
  | Runs out err code =>
      {| command := cmd; success := is_zero code;
         stdout := received out; stderr := received err; exitCode := code;
         error := if is_zero code then None else Some nonZeroExit |}
  end.

Definition succeeds (b : Behaviour) : bool :=
  match b with
  | FailsToStart _ => false
  | Runs _ _ code => is_zero code
  end.

(** Results up to and including the first command that does not succeed. *)
Fixpoint expected_results (cmds : list Value) (script : list Behaviour)
  : list ExecutionResult :=
  match cmds, script with
  | cmd :: cmds', b :: script' =>
      result_of cmd b ::
      (if succeeds b then expected_results cmds' script' else [])
  | _, _ => []
  end.

(** The state in which command [cmd], submitted from state [s], has ended
    with result [r] and the loop stands at [ph]. *)
Definition after_command (cmd : Value) (r : ExecutionResult) (ph : Phase)
    (s : State) : State :=
  set_phase ph
    (set_channel Idle
       (set_results (cmd_results s ++ [r])
          (call_exec cmd (set_finishMethod None s)))).

(** What the closing reactions of [run] leave behind when they run in
    state [s]. *)
Definition closing (s s' : State) : Prop :=
  phase s' = Closed ∧ commands s' = commands s ∧
  end_calls s' = S (end_calls s) ∧
  returned s' =
    resolve (with_results (cmd_results s')
               (tally (cmd_results s') (execResult s))) (returned s).

(** [run] followed by a sequence of events: the thrown error, or what the
    returned promise holds at the end ([None] when the events cannot
    occur). *)
Definition run_then (exec_returns : nat → bool) (self : RemoteClient.t)
    (commands : Value) (evs : list Event)
  : JsError + option (Promise SshExecutionResults) :=
  match run self commands with
  | inl err => inl err
  | inr s0 => inr (returned <$> run_events exec_returns s0 evs)
  end.

(** *** Vocabulary of the statements *)



Definition is_closed (s : State) : bool :=
  match phase s with Closed => true | _ => false end.

Definition is_client_error (ev : Event) : bool :=
  match ev with ClientError _ => true | _ => false end.

(** How many ['error'] events a sequence of events holds. *)
Definition client_errors (evs : list Event) : nat :=
  length (filter (λ ev, is_client_error ev = true) evs).

Definition closed_count (s : State) : nat := if is_closed s then 1 else 0.
Definition error_count (ev : Event) : nat := if is_client_error ev then 1 else 0.

(** The command loop has left its last command: no executor runs again. *)
Definition halted (s : State) : Prop := phase s = Draining ∨ phase s = Closed.

(** The loop has moved past command [i]: the reaction that visits command
    [i + 1] is queued, or that command has been submitted. *)
Definition advanced (i : nat) (s : State) : Prop :=
  phase s = Next (S i) ∨ S i < length (exec_calls s).

(** Among the events [evs] that follow [s0], the stream of command [i] was
    closed with exit code 0. *)
Definition closed_with_zero (exec_returns : nat → bool)
    (s0 : State) (i : nat) (evs : list Event) : Prop :=
  ∃ before between sa e r,
    evs = before ++ StreamClose (VNum 0) :: between ∧
    run_events exec_returns s0 before = Some sa ∧
    channel sa = Open e r ∧ index e = i.

(** Among the events [evs] that follow [s0], the stream of command [i] was
    closed with exit code 0 and, later, a ['continue'] arrived while
    command [i] was still the last one submitted and its resume action was
    installed. *)
Definition resumed_by_continue (exec_returns : nat → bool)
    (s0 : State) (i : nat) (evs : list Event) : Prop :=
  ∃ before between after sa e r sb,
    evs = before ++ StreamClose (VNum 0) :: between ++ ClientContinue :: after ∧
    run_events exec_returns s0 before = Some sa ∧
    channel sa = Open e r ∧ index e = i ∧
    run_events exec_returns s0 (before ++ StreamClose (VNum 0) :: between)
      = Some sb ∧
    phase sb = Executing i ∧ _finishMethod sb = Some i ∧
    length (exec_calls sb) = S i.

(** The rejection reasons that events can carry: an ['error'] of the
    client, or a failed read of the private key. *)
Definition connection_failure (err : JsError) (ev : Event) : Prop :=
  ev = ClientError err ∨ ev = ReadFileDone (RemoteClient.ReadError err).

End SshClient.

(** ** Sample clients *)

Definition password_config : RemoteClient.ClientConfig :=
  {| RemoteClient.cfg_host := VStr "build.example.org";
     RemoteClient.cfg_port := VUndefined;
     RemoteClient.cfg_username := VStr "deploy";
     RemoteClient.cfg_password := VStr "s3cret";
     RemoteClient.cfg_privateKey := VUndefined |}.

Definition password_client : RemoteClient.t :=
  {| RemoteClient._host := VStr "build.example.org";
     RemoteClient._port := VNum 22;
     RemoteClient._username := VStr "deploy";
     RemoteClient._password := VStr "s3cret";
     RemoteClient._privateKey := VUndefined;
     RemoteClient._privateKeyData := VUndefined |}.

Definition key_config : RemoteClient.ClientConfig :=
  {| RemoteClient.cfg_host := VStr "build.example.org";
     RemoteClient.cfg_port := VNum 2222;
     RemoteClient.cfg_username := VStr "deploy";
     RemoteClient.cfg_password := VStr "s3cret";
     RemoteClient.cfg_privateKey := VStr "/home/deploy/.ssh/id_rsa" |}.

Definition key_client : RemoteClient.t :=
  {| RemoteClient._host := VStr "build.example.org";
     RemoteClient._port := VNum 2222;
     RemoteClient._username := VStr "deploy";
     RemoteClient._password := VStr "s3cret";
     RemoteClient._privateKey := VStr "/home/deploy/.ssh/id_rsa";
     RemoteClient._privateKeyData := VUndefined |}.

Definition key_bytes : list Byte.byte := [Byte.x2d; Byte.x2d; Byte.x42].

(** A storage that holds the key, and one whose reads fail. *)
Definition good_disk (n : nat) (path : Value) : RemoteClient.ReadResult :=
  RemoteClient.ReadData key_bytes.

Definition bad_disk (n : nat) (path : Value) : RemoteClient.ReadResult :=
  RemoteClient.ReadError (Error "ENOENT").

(** A transport that asks to wait after every [exec], one that never does. *)
Definition always_wait (n : nat) : bool := false.
Definition never_wait (n : nat) : bool := true.

(** ** A sample session *)

Definition build_commands : Value :=
  VArr [VStr "make"; VStr "make test"; VStr "make install"].

(** [run(build_commands)] on [password_client], waiting for ['ready']. *)
Definition build_start : SshClient.State :=
  SshClient.call_connect
    (RemoteClient.with_password (RemoteClient.connectionOptions password_client)
       (VStr "s3cret"))
    (SshClient.set_phase SshClient.Connecting
       (SshClient.initial_state password_client
          [VStr "make"; VStr "make test"; VStr "make install"])).

(** The state that [evs] lead to from [build_start], over a transport that
    asks to wait after every [exec]. *)
Definition build_state (evs : list SshClient.Event) : SshClient.State :=
  default build_start (SshClient.run_events always_wait build_start evs).

(** The first command succeeds, the second exits with code 2; the third
    would succeed. *)
Definition build_script : list SshClient.Behaviour :=
  [SshClient.Runs ["cc -o app"] [] (VNum 0);
   SshClient.Runs [] ["1 test failed"] (VNum 2);
   SshClient.Runs [] [] (VNum 0)].

Definition build_events : list SshClient.Event :=
  SshClient.ClientReady :: SshClient.session_events always_wait build_script 0.

(** The result of the second command under [build_script]. *)
Definition failed_test : SshClient.ExecutionResult :=
  {| SshClient.command := VStr "make test"; SshClient.success := false;
     SshClient.stdout := ""; SshClient.stderr := "1 test failed";
     SshClient.exitCode := VNum 2;
     SshClient.error := Some SshClient.nonZeroExit |}.

(** The key client once its key is cached, and what it then resolves. *)
Definition key_path : Value := VStr "/home/deploy/.ssh/id_rsa".

Definition key_client_loaded : RemoteClient.t :=
  RemoteClient.set_privateKeyData key_client (VBuf key_bytes).

Definition key_options : RemoteClient.ConnectionOptions :=
  RemoteClient.with_key (RemoteClient.connectionOptions key_client)
    (VStr "s3cret") (VBuf key_bytes).

Definition password_options : RemoteClient.ConnectionOptions :=
  RemoteClient.with_password (RemoteClient.connectionOptions password_client)
    (VStr "s3cret").

(** ** Resolutions that overlap

    [getConnectionOptions] consults the cache when it is called and fills it
    when [fs.readFile] calls back.  Several calls may be made before the
    first read completes; the operations below are the calls and the
    completions of the reads in flight, in the order in which they happen. *)
Module Overlap.
Import RemoteClient.

Inductive Op : Type :=
| Call                         (* getConnectionOptions() *)
| ReadDone (r : ReadResult).   (* a pending fs.readFile calls back *)

Record World : Type := {
  client : t;
  reads : list Value;                           (* paths given to fs.readFile *)
  in_flight : nat;                              (* reads that have not called back *)
  settled : list (Promise ConnectionOptions)    (* promises settled so far *)
}.

Definition fresh (c : t) : World :=
  {| client := c; reads := []; in_flight := 0; settled := [] |}.

(** [None]: [fs] calls back only for a read that is in flight. *)
Definition op_step (w : World) (op : Op) : option World :=
  match op with
  | Call =>
      match getConnectionOptions_start (client w) with
      | Ready opts =>
          Some {| client := client w; reads := reads w; in_flight := in_flight w;
                  settled := settled w ++ [Resolved opts] |}
      | Reading path =>
          Some {| client := client w; reads := reads w ++ [path];
                  in_flight := S (in_flight w); settled := settled w |}
      end
  | ReadDone r =>
      match in_flight w with
      | O => None
      | S k =>
          let '(c, p) := readFile_callback (client w) r in
          Some {| client := c; reads := reads w; in_flight := k;
                  settled := settled w ++ [p] |}
      end
  end.

Fixpoint run_ops (w : World) (ops : list Op) : option World :=
  match ops with
  | [] => Some w
  | op :: ops' =>
      match op_step w op with
      | Some w' => run_ops w' ops'
      | None => None
      end
  end.

End Overlap.

(** ** Vocabulary of further statements *)

Definition is_rejected {A} (p : Promise A) : bool :=
  match p with Rejected _ => true | _ => false end.

Definition is_resolved {A} (p : Promise A) : bool :=
  match p with Resolved _ => true | _ => false end.

(** How many of the promises were rejected. *)
Definition rejections {A} (ps : list (Promise A)) : nat :=
  length (filter (λ p, is_rejected p = true) ps).

(** A storage whose first two reads fail. *)
Definition flaky_disk (n : nat) (path : Value) : RemoteClient.ReadResult :=
  if n <? 2 then RemoteClient.ReadError (Error "EAGAIN")
  else RemoteClient.ReadData key_bytes.

(** Two calls were made on [key_client]; the first read has delivered the
    key, the second has not called back yet. *)
Definition one_read_left : Overlap.World :=
  {| Overlap.client := key_client_loaded;
     Overlap.reads := [key_path; key_path];
     Overlap.in_flight := 1;
     Overlap.settled := [Resolved key_options] |}.

(** ** Shapes of results and sessions *)
Module Shapes.
Import SshClient.

(** A result whose command has ended: a success with exit code 0 and no
    error, or a failure with an error and an exit code other than 0. *)
Definition finished (r : ExecutionResult) : Prop :=
  (success r = true ∧ exitCode r = VNum 0 ∧ error r = None) ∨
  (success r = false ∧ exitCode r ≠ VNum 0 ∧ error r ≠ None).

(** A result whose command is still running. *)
Definition running (r : ExecutionResult) : Prop :=
  success r = true ∧ exitCode r = VUndefined ∧ error r = None.

(** Only the result of a command whose stream is open is unfinished. *)
Definition record_inv (s : State) : Prop :=
  match channel s with
  | Open _ _ =>
      ∃ ok cur, cmd_results s = ok ++ [cur] ∧ Forall finished ok ∧ running cur
  | _ => Forall finished (cmd_results s)
  end.

(** What has been asked of [fs] and of the ssh2 constructor. *)
Definition connect_inv (s : State) : Prop :=
  match phase s with
  | LoadingKey =>
      connect_calls s = [] ∧
      readFile_calls s = [RemoteClient._privateKey (this s)] ∧
      truthy (RemoteClient._privateKey (this s)) = true
  | KeyFailed =>
      connect_calls s = [] ∧
      readFile_calls s = [RemoteClient._privateKey (this s)]
  | _ =>
      ∃ connOpts, connect_calls s = [connOpts] ∧
        RemoteClient.getConnectionOptions_start (this s)
          = RemoteClient.Ready connOpts
  end.

Definition is_output (ev : Event) : bool :=
  match ev with StreamData _ | StderrData _ => true | _ => false end.

Definition is_continue (ev : Event) : bool :=
  match ev with ClientContinue => true | _ => false end.

(** The chunks that a sequence of events delivers on each output stream, in
    the order of arrival. *)
Definition stdout_chunks (evs : list Event) : list string :=
  omap (λ ev, match ev with StreamData d => Some d | _ => None end) evs.

Definition stderr_chunks (evs : list Event) : list string :=
  omap (λ ev, match ev with StderrData d => Some d | _ => None end) evs.

(** [+=] of every chunk in turn, starting from [text]. *)
Definition appended (text : string) (chunks : list string) : string :=
  fold_left String.append chunks text.

(** The result [r] after the output events [evs]. *)
Definition with_output (evs : list Event) (r : ExecutionResult) : ExecutionResult :=
  {| command := command r; success := success r;
     stdout := appended (stdout r) (stdout_chunks evs);
     stderr := appended (stderr r) (stderr_chunks evs);
     exitCode := exitCode r; error := error r |}.

End Shapes.

(** ** Further sample sessions *)

(** [run(build_commands)] on [key_client], waiting for the key. *)
Definition key_start : SshClient.State :=
  SshClient.call_readFile key_path
    (SshClient.initial_state key_client
       [VStr "make"; VStr "make test"; VStr "make install"]).

(** Every command of the build succeeds. *)
Definition green_script : list SshClient.Behaviour :=
  [SshClient.Runs ["cc -o app"] [] (VNum 0);
   SshClient.Runs ["42 tests passed"] [] (VNum 0);
   SshClient.Runs [] [] (VNum 0)].

(** The first command has been started; then it has exited with code 0. *)
Definition make_running : list SshClient.Event :=
  [SshClient.ClientReady; SshClient.Tick; SshClient.ExecCallback None].

Definition make_exited : list SshClient.Event :=
  make_running ++ [SshClient.StreamClose (VNum 0)].

(** Output of [make] on both streams. *)
Definition make_output : list SshClient.Event :=
  [SshClient.StreamData "cc -c a.c"; SshClient.StderrData "a.c:3: warning";
   SshClient.StreamData "cc -o app"].

(** ** The closing path and the start error, as the specification words them *)





(** * Properties of RemoteClient *)
Module RemoteClientFacts.
Import ArgValidator RemoteClient.

Lemma checkString_text v : checkString v 1 = true ↔ is_text v.
Proof.
  unfold is_text. destruct v; simpl; try naive_solver.
  rewrite bool_decide_eq_true. split.
  - intros Hlen. exists s. split; [done|]. intros ->. simpl in Hlen. lia.
  - intros (s' & [= <-] & Hne). destruct s; [done|simpl; lia].
Qed.

Lemma truthy_text v : is_text v → truthy v = true.
Proof. intros (s & -> & Hne). simpl. by destruct s. Qed.

(** What the constructor guarantees about the instance it returns. *)
Lemma new_fields options c :
  new options = inr c →
  _privateKeyData c = VUndefined ∧
  (_privateKey c = VUndefined ∨ is_text (_privateKey c)) ∧
  (_password c = VUndefined ∨ is_text (_password c)) ∧
  (_privateKey c = VUndefined → is_text (_password c)) ∧
  _privateKey c = (if checkString (cfg_privateKey options) 1
                   then cfg_privateKey options else VUndefined) ∧
  _password c = (if checkString (cfg_password options) 1
                 then cfg_password options else VUndefined).
Proof.
  unfold new. intros H.
  destruct (checkString (cfg_host options) 1); [|done].
  destruct (checkString (cfg_username options) 1); [|done]. simpl in H.
  destruct (checkString (cfg_privateKey options) 1) eqn:Hk;
    destruct (checkString (cfg_password options) 1) eqn:Hp; simpl in H.
  - apply checkString_text in Hk as Hk', Hp as Hp'.
    destruct Hk' as (k & Hkv & ?). rewrite Hkv in H. simpl in H.
    injection H as <-. simpl. unfold is_text in *. intuition (eauto; congruence).
  - apply checkString_text in Hk as Hk'.
    destruct Hk' as (k & Hkv & ?). rewrite Hkv in H. simpl in H.
    injection H as <-. simpl. unfold is_text in *. intuition (eauto; congruence).
  - apply checkString_text in Hp as Hp'.
    destruct Hp' as (p & Hpv & ?). rewrite Hpv in H. simpl in H.
    injection H as <-. simpl. unfold is_text in *. intuition (eauto; congruence).
  - done.
Qed.

Section Sequential.
Variable disk : nat → Value → ReadResult.

Lemma cache_of_new options c : new options = inr c → cache_of disk c c [].
Proof.
intros H. apply new_fields in H as (Hd & _). split; [|by left].
rewrite Hd. by destruct c; simpl in *; subst.
Qed.

Lemma getConnectionOptions_cache c this reads this' reads' p :
  cache_of disk c this reads →
  getConnectionOptions disk this reads = (this', reads', p) →
  cache_of disk c this' reads'.
Proof.
  intros [Hsame Hdata]. unfold getConnectionOptions.
  destruct (getConnectionOptions_start this) as [opts|path] eqn:Hstart.
  - intros [= <- <- <-]. by split.
  - unfold getConnectionOptions_start in Hstart.
    destruct (truthy (_privateKey this)); [|done].
    destruct (truthy (_privateKeyData this)); [done|].
    injection Hstart as <-.
    destruct (disk (length reads) (_privateKey this)) as [err|data] eqn:Hread;
      simpl; intros [= <- <- <-].
    + split; simpl; [|by left]. by rewrite Hsame.
    + split; simpl; [by rewrite Hsame|]. right. exists data, (length reads).
      rewrite length_app. simpl. split; [lia|]. split; [|done].
      rewrite Hsame in Hread. done.
Qed.

Lemma getConnectionOptions_times_cache n c this reads this' reads' ps :
  cache_of disk c this reads →
  getConnectionOptions_times disk n this reads = (this', reads', ps) →
  cache_of disk c this' reads'.
Proof.
  revert this reads ps. induction n as [|n IH]; intros this reads ps Hc; simpl.
  - by intros [= <- <- <-].
  - destruct (getConnectionOptions disk this reads) as [[this1 reads1] p] eqn:H1.
    destruct (getConnectionOptions_times disk n this1 reads1)
      as [[this2 reads2] ps'] eqn:H2.
    intros [= <- <- <-]. eapply IH; [|done].
    by eapply getConnectionOptions_cache.
Qed.

Lemma text_defined v : is_text v → v ≠ VUndefined.
Proof. by intros (s & -> & _). Qed.

(** Once the cache is filled, a resolution is settled on the spot and
    touches neither the instance nor the storage. *)
Lemma getConnectionOptions_cached this reads :
  truthy (_privateKey this) = true →
  truthy (_privateKeyData this) = true →
  getConnectionOptions disk this reads =
    (this, reads,
     Resolved (with_key (connectionOptions this) (_password this)
                 (_privateKeyData this))).
Proof.
  intros Hk Hd. unfold getConnectionOptions, getConnectionOptions_start.
  by rewrite Hk, Hd.
Qed.

Lemma getConnectionOptions_times_cached m this reads :
  truthy (_privateKey this) = true →
  truthy (_privateKeyData this) = true →
  getConnectionOptions_times disk m this reads =
    (this, reads,
     replicate m (Resolved (with_key (connectionOptions this) (_password this)
                              (_privateKeyData this)))).
Proof.
  intros Hk Hd. induction m as [|m IH]; simpl; [done|].
  by rewrite getConnectionOptions_cached, IH.
Qed.

(** C8: every resolution of a configured client carries exactly one
    credential.  Without a configured private key it is the password,
    and [privateKey] and [passphrase] stay unset.  With one it is the
    bytes that a read of the key returned; [password] stays unset and the
    configured password, if any, is the [passphrase]. *)
Theorem resolved_options_hold_one_credential
    (options : ClientConfig) (c this this' : t) (n : nat)
    (reads reads' : list Value) (ps : list (Promise ConnectionOptions))
    (opts : ConnectionOptions) :
  new options = inr c →
  getConnectionOptions_times disk n c [] = (this, reads, ps) →
  getConnectionOptions disk this reads = (this', reads', Resolved opts) →
  (checkString (cfg_privateKey options) 1 = false →
     password opts = cfg_password options ∧ is_text (password opts) ∧
     privateKey opts = VUndefined ∧ passphrase opts = VUndefined) ∧
  (checkString (cfg_privateKey options) 1 = true →
     (∃ data k, k < length reads' ∧
        disk k (cfg_privateKey options) = ReadData data ∧
        privateKey opts = VBuf data) ∧
     password opts = VUndefined ∧
     passphrase opts = (if checkString (cfg_password options) 1
                        then cfg_password options else VUndefined)).
Proof.
  intros Hnew Htimes Hget.
  pose proof (new_fields _ _ Hnew) as (_ & _ & _ & Hpw & Hkey & Hpass).
  pose proof (getConnectionOptions_times_cache _ _ _ _ _ _ _
                (cache_of_new _ _ Hnew) Htimes) as Hcache.
  pose proof (getConnectionOptions_cache _ _ _ _ _ _ Hcache Hget)
    as [Hsame' Hdata'].
  destruct Hcache as [Hsame Hdata].
  assert (Hk : _privateKey this = _privateKey c) by by rewrite Hsame.
  assert (Hp : _password this = _password c) by by rewrite Hsame.
  unfold getConnectionOptions, getConnectionOptions_start in Hget.
  rewrite Hk, Hp in Hget.
  split; intros Hcfg; rewrite Hcfg in Hkey.
  - rewrite Hkey in Hget. simpl in Hget. injection Hget as <- <- <-. simpl.
    specialize (Hpw Hkey). rewrite Hpass in Hpw |- *.
    destruct (checkString (cfg_password options) 1); [done|].
    by apply text_defined in Hpw.
  - apply checkString_text in Hcfg. rewrite Hkey, (truthy_text _ Hcfg) in Hget.
    simpl in Hget. rewrite <- Hpass. rewrite Hkey in Hdata.
    destruct (truthy (_privateKeyData this)) eqn:Hcached.
    + injection Hget as <- <- <-. simpl. split; [|done].
      destruct Hdata as [Hu|(data & k & ? & ? & Hd)]; [by rewrite Hu in Hcached|].
      exists data, k. eauto.
    + destruct (disk (length reads) (cfg_privateKey options)) as [err|data] eqn:Hread;
        simpl in Hget; [done|]. injection Hget as <- <- <-. simpl.
      split; [|done]. exists data, (length reads). rewrite length_app. simpl.
      split; [lia|done].
Qed.

(** C9: with a private key configured, a failed read rejects the
    resolution with the error of the storage, and once a resolution has
    succeeded every later one returns the same options, cached on the
    instance, without another read. *)
Theorem key_is_loaded_once
    (options : ClientConfig) (c this : t) (n : nat)
    (reads : list Value) (ps : list (Promise ConnectionOptions)) :
  new options = inr c →
  checkString (cfg_privateKey options) 1 = true →
  getConnectionOptions_times disk n c [] = (this, reads, ps) →
  (∀ err,
     _privateKeyData this = VUndefined →
     disk (length reads) (cfg_privateKey options) = ReadError err →
     ∃ this', getConnectionOptions disk this reads
              = (this', reads ++ [cfg_privateKey options], Rejected err)) ∧
  (∀ this' reads' opts,
     getConnectionOptions disk this reads = (this', reads', Resolved opts) →
     _privateKeyData this' = privateKey opts ∧
     (∃ data, privateKey opts = VBuf data) ∧
     ∀ m, getConnectionOptions_times disk m this' reads'
          = (this', reads', replicate m (Resolved opts))).
Proof.
  intros Hnew Hcfg Htimes.
  pose proof (new_fields _ _ Hnew) as (_ & _ & _ & _ & Hkey & _).
  rewrite Hcfg in Hkey. apply checkString_text in Hcfg.
  pose proof (getConnectionOptions_times_cache _ _ _ _ _ _ _
                (cache_of_new _ _ Hnew) Htimes) as [Hsame Hdata].
  assert (Hk : _privateKey this = cfg_privateKey options)
    by by rewrite Hsame, <- Hkey.
  pose proof (truthy_text _ Hcfg) as Htruthy.
  split.
  - intros err Hempty Hread. unfold getConnectionOptions, getConnectionOptions_start.
    rewrite Hk, Htruthy, Hempty. simpl. rewrite Hread. simpl. eauto.
  - intros this' reads' opts Hget.
    unfold getConnectionOptions, getConnectionOptions_start in Hget.
    rewrite Hk, Htruthy in Hget. simpl in Hget.
    destruct (truthy (_privateKeyData this)) eqn:Hcached.
    + injection Hget as <- <- <-. simpl. split; [done|]. split.
      * destruct Hdata as [Hu|(data & ? & ? & ? & ->)]; [by rewrite Hu in Hcached|eauto].
      * intros m. apply getConnectionOptions_times_cached; [by rewrite Hk|done].
    + destruct (disk (length reads) (cfg_privateKey options)) as [err|data];
        simpl in Hget; [done|]. injection Hget as <- <- <-. simpl.
      split; [done|]. split; [eauto|]. intros m.
      by rewrite getConnectionOptions_times_cached; simpl; rewrite ?Hk.
Qed.
End Sequential.

Lemma resolved_options_hold_one_credential_witness :
  new key_config = inr key_client ∧
  getConnectionOptions_times good_disk 1 key_client []
    = (key_client_loaded, [key_path], [Resolved key_options]) ∧
  getConnectionOptions good_disk key_client_loaded [key_path]
    = (key_client_loaded, [key_path], Resolved key_options) ∧
  (checkString (cfg_privateKey key_config) 1 = false →
     password key_options = cfg_password key_config ∧
     is_text (password key_options) ∧
     privateKey key_options = VUndefined ∧
     passphrase key_options = VUndefined) ∧
  (checkString (cfg_privateKey key_config) 1 = true →
     (∃ data k, k < length [key_path] ∧
        good_disk k (cfg_privateKey key_config) = ReadData data ∧
        privateKey key_options = VBuf data) ∧
     password key_options = VUndefined ∧
     passphrase key_options = (if checkString (cfg_password key_config) 1
                               then cfg_password key_config else VUndefined)).
Proof.
  split; [reflexivity|]. split; [reflexivity|]. split; [reflexivity|].
  apply (resolved_options_hold_one_credential good_disk key_config key_client
           key_client_loaded key_client_loaded 1 [key_path] [key_path]
           [Resolved key_options] key_options); reflexivity.
Defined.

Lemma key_is_loaded_once_witness :
  new key_config = inr key_client ∧
  checkString (cfg_privateKey key_config) 1 = true ∧
  getConnectionOptions_times good_disk 0 key_client [] = (key_client, [], []) ∧
  getConnectionOptions good_disk key_client []
    = (key_client_loaded, [key_path], Resolved key_options) ∧
  getConnectionOptions_times good_disk 2 key_client_loaded [key_path]
    = (key_client_loaded, [key_path], replicate 2 (Resolved key_options)).
Proof.
  split; [reflexivity|]. split; [reflexivity|]. split; [reflexivity|].
  split; [reflexivity|].
  destruct (key_is_loaded_once good_disk key_config key_client key_client 0 [] []
              eq_refl eq_refl eq_refl) as [_ Hcached].
  destruct (Hcached key_client_loaded [key_path] key_options eq_refl)
    as (_ & _ & Htimes).
  exact (Htimes 2).
Defined.
End RemoteClientFacts.

(** * Properties of SshClient *)
Module SshClientFacts.
Import ArgValidator SshClient.
Section Facts.
Variable exec_returns : nat → bool.
Local Abbreviation step := (step exec_returns).
Local Abbreviation run_events := (run_events exec_returns).
Local Abbreviation Inv := (Inv exec_returns).
Local Abbreviation phase_inv := (phase_inv exec_returns).

Lemma prefix_push (cmds calls : list Value) cmd :
calls = take (length calls) cmds →
cmds !! length calls = Some cmd →
calls ++ [cmd] = take (length (calls ++ [cmd])) cmds.
Proof.
intros H1 H2. rewrite length_app. simpl. rewrite Nat.add_1_r.
rewrite (take_S_r _ _ _ H2). by rewrite <- H1.
Qed.

Lemma snoc_of_length {A} (l : list A) n :
length l = S n → ∃ ok x, l = ok ++ [x] ∧ length ok = n.
Proof.
destruct l as [|y l] using rev_ind; [done|].
rewrite length_app. simpl. intros H. exists l, y. split; [done|lia].
Qed.

Lemma alter_last {A} (f : A → A) (ok : list A) x :
alter f (length ok) (ok ++ [x]) = ok ++ [f x].
Proof. rewrite alter_app_r_alt by lia. by rewrite Nat.sub_diag. Qed.

Lemma reject_unresolved {A} (p : Promise A) e :
unresolved p → unresolved (reject e p).
Proof. by destruct p. Qed.

Lemma reject_settled {A} (p : Promise A) e : settled (reject e p).
Proof. by destruct p. Qed.

Lemma resolve_settled {A} (p : Promise A) v : settled (resolve v p).
Proof. by destruct p. Qed.

Lemma reject_resolved {A} (p : Promise A) e v :
reject e p = Resolved v → p = Resolved v.
Proof. by destruct p. Qed.

Ltac open_state s :=
destruct s; unfold SshClient.phase_inv, pristine, untallied in *; simpl in *.
Ltac solve_inv :=
split; simpl; unfold SshClient.phase_inv, pristine, untallied; simpl;
try done; naive_solver eauto using reject_unresolved, reject_resolved, reject_settled.

Lemma on_readFile_inv s r :
Inv s → phase s = LoadingKey → Inv (on_readFile r s).
Proof.
intros [He Hc Hp] Hph. open_state s. subst.
destruct r; solve_inv.
Qed.

Lemma on_ready_inv s : Inv s → phase s = Connecting → Inv (on_ready s).
Proof.
intros [He Hc Hp] Hph. open_state s. subst. solve_inv.
Qed.

Lemma on_error_inv s err : Inv s → has_client s = true → Inv (on_error err s).
Proof.
intros [He Hc Hp] Hcl. open_state s. unfold on_error, has_client in *. simpl in *.
destruct phase0; try done; solve_inv.
Qed.

Lemma on_continue_inv s : Inv s → Inv (on_continue s).
Proof.
intros [He Hc Hp]. open_state s. unfold on_continue, resolve_command. simpl.
destruct _finishMethod0 as [j|]; [|by split].
destruct phase0; simpl; try solve_inv.
destruct channel0; try naive_solver.
destruct Hp as (? & ? & ? & ? & [= ->] & ?). rewrite Nat.eqb_refl. solve_inv.
Qed.

Lemma on_exec_callback_inv s e err :
Inv s → channel s = Starting e → Inv (on_exec_callback e err s).
Proof.
intros [He Hc Hp] Hch. open_state s. subst.
unfold on_exec_callback, reject_command. simpl.
destruct phase0; try by (destruct_and!; simplify_eq). simpl in Hp.
destruct Hp as (Hl & Hok & [Hu1 Hu2] & Hi & Hcmd & Hcn & Hlen & Hf).
assert (Hpush : command <$> cmd_results0 ++ [new_result (exec_command e)]
          = take (S (length cmd_results0)) commands0).
{ rewrite fmap_app, Hc, Hlen. simpl. by rewrite (take_S_r _ _ _ Hcmd). }
destruct err as [err|]; simpl.
- rewrite alter_last. rewrite Hi, Nat.eqb_refl. simpl.
  split; simpl.
  + done.
  + rewrite length_app, Nat.add_1_r. simpl. by rewrite fmap_app in *.
  + unfold SshClient.phase_inv, untallied. simpl.
    rewrite length_app. simpl. repeat split; try done; try lia.
    eexists _, _. by split.
- split; simpl; [done| |].
  + by rewrite length_app, Nat.add_1_r.
  + unfold SshClient.phase_inv, untallied. simpl.
    rewrite length_app, Forall_app, Forall_singleton. simpl.
    repeat split; try done; lia.
Qed.

Lemma alter_preserves_commands (f : ExecutionResult → ExecutionResult)
  (rs : list ExecutionResult) (r : nat) :
(∀ x, command (f x) = command x) →
command <$> alter f r rs = command <$> rs.
Proof.
intros Hf. rewrite (list_fmap_alter command f id).
- by apply list_alter_id.
- apply Forall_forall. intros x _. apply Hf.
Qed.

Lemma alter_preserves_succeeded (f : ExecutionResult → ExecutionResult)
  (rs : list ExecutionResult) (r : nat) :
(∀ x, success (f x) = success x) →
Forall succeeded rs → Forall succeeded (alter f r rs).
Proof.
intros Hf Hrs. apply Forall_alter; [done|].
intros x _. unfold succeeded. by rewrite Hf.
Qed.

Lemma on_data_inv s e r data :
Inv s → channel s = Open e r → Inv (on_data r data s).
Proof.
intros [He Hc Hp] Hch. open_state s. subst. unfold on_data. simpl.
split; simpl; [done| |].
- by rewrite length_alter, alter_preserves_commands.
- unfold SshClient.phase_inv, untallied. simpl.
  destruct phase0; try by (destruct_and!; simplify_eq).
  rewrite length_alter. intuition auto using alter_preserves_succeeded.
Qed.

Lemma on_stderr_data_inv s e r data :
Inv s → channel s = Open e r → Inv (on_stderr_data r data s).
Proof.
intros [He Hc Hp] Hch. open_state s. subst. unfold on_stderr_data. simpl.
split; simpl; [done| |].
- by rewrite length_alter, alter_preserves_commands.
- unfold SshClient.phase_inv, untallied. simpl.
  destruct phase0; try by (destruct_and!; simplify_eq).
  rewrite length_alter. intuition auto using alter_preserves_succeeded.
Qed.

Lemma on_close_inv s e r code :
Inv s → channel s = Open e r → Inv (on_close e r code s).
Proof.
intros [He Hc Hp] Hch. open_state s. subst.
destruct phase0; try by (destruct_and!; simplify_eq). simpl in Hp.
destruct Hp as (Hl & Hok & [Hu1 Hu2] & Hi & Hr & Hcn & Hlen & Hf). subst r.
destruct (snoc_of_length _ _ Hlen) as (ok & cur & -> & Hlok).
rewrite Forall_app, Forall_singleton in Hok. destruct Hok as [Hok Hcur].
unfold on_close, reject_command, resolve_command. simpl.
rewrite <- Hlok, !alter_last. rewrite Hi, Hlok.
destruct (is_zero code) eqn:Hz; simpl.
- destruct (callNext e) eqn:Hcall; simpl; rewrite ?Nat.eqb_refl; simpl.
  + split; simpl; [done|by rewrite !fmap_app, !length_app in *|].
    unfold SshClient.phase_inv, untallied. simpl.
    rewrite length_app, Forall_app, Forall_singleton. simpl.
    repeat split; try done; try lia.
  + split; simpl; [done|by rewrite !fmap_app, !length_app in *|].
    unfold SshClient.phase_inv, untallied. simpl.
    rewrite length_app, Forall_app, Forall_singleton. simpl.
    repeat split; try done; try lia; congruence.
- rewrite Nat.eqb_refl. simpl.
  split; simpl; [done|by rewrite !fmap_app, !length_app in *|].
  unfold SshClient.phase_inv, untallied. simpl.
  rewrite !length_app in *. simpl in *. repeat split; try done; try lia.
  eexists _, _. by split.
Qed.

Lemma tally_counts rs acc :
tally rs acc =
  {| commandCount := commandCount acc;
     successCount := successCount acc + length (filter (λ r, success r = true) rs);
     failureCount := failureCount acc + length (filter (λ r, success r = false) rs);
     results := results acc |}.
Proof.
unfold tally. revert acc.
induction rs as [|r rs IH]; intros acc; simpl.
- destruct acc; simpl. f_equal; lia.
- rewrite IH. unfold count_result. rewrite !filter_cons.
  destruct (success r); simpl; f_equal; lia.
Qed.

Lemma tally_fresh n rs :
with_results rs (tally rs (fresh_summary n)) = summary_of n rs.
Proof. by rewrite tally_counts. Qed.

Lemma execute_inv s i cmd :
Inv s → phase s = Next i → commands s !! i = Some cmd →
Inv (execute exec_returns i cmd s).
Proof.
intros [He Hc Hp] Hph Hcmd. open_state s. subst.
destruct Hp as (Hlen & Hl & Hok & Hch & Hf & Hu1 & Hu2).
split; simpl.
- apply prefix_push; [done|]. by rewrite Hl.
- done.
- unfold SshClient.phase_inv, untallied. simpl.
  rewrite length_app. simpl. rewrite Hl. repeat split; try done; lia.
Qed.

Lemma finish_inv s :
Inv s →
phase s = Draining ∨ (∃ i, phase s = Next i ∧ commands s !! i = None) →
Inv (finish s).
Proof.
intros [He Hc Hp] Hph. open_state s. unfold finish. simpl.
split; simpl; [done..|].
unfold SshClient.phase_inv. simpl.
destruct Hph as [->|(i & -> & Hnone)].
- destruct Hp as (? & ? & ? & ? & -> & Hu). rewrite tally_fresh.
  destruct returned0; naive_solver.
- destruct Hp as (Hlen & Hl & Hok & ? & ? & -> & Hu). rewrite tally_fresh.
  apply lookup_ge_None in Hnone.
  assert (length exec_calls0 ≤ length commands0).
  { rewrite He, length_take. lia. }
  destruct returned0; simpl in *; repeat split; try done; try lia;
    try (left; split; [done|lia]); naive_solver.
Qed.

Lemma on_tick_inv s : Inv s → Inv (on_tick exec_returns s).
Proof.
intros HI. unfold on_tick.
destruct (phase s) eqn:Hph; try done.
- destruct (commands s !! i) eqn:Hcmd.
  + by apply execute_inv.
  + apply finish_inv; eauto.
- apply finish_inv; eauto.
Qed.

Theorem step_inv s ev s' : Inv s → step s ev = Some s' → Inv s'.
Proof.
intros HI Hstep. destruct ev; simpl in Hstep.
- destruct (phase s) eqn:Hph; simplify_eq. by apply on_readFile_inv.
- destruct (phase s) eqn:Hph; simplify_eq. by apply on_ready_inv.
- case_match; simplify_eq. by apply on_error_inv.
- case_match; simplify_eq. by apply on_continue_inv.
- destruct (channel s) eqn:Hch; simplify_eq. by apply on_exec_callback_inv.
- destruct (channel s) eqn:Hch; simplify_eq. by eapply on_data_inv.
- destruct (channel s) eqn:Hch; simplify_eq. by eapply on_stderr_data_inv.
- destruct (channel s) eqn:Hch; simplify_eq. by apply on_close_inv.
- simplify_eq. by apply on_tick_inv.
Qed.

Lemma run_events_app s evs1 evs2 :
run_events s (evs1 ++ evs2) =
  match run_events s evs1 with
  | Some s1 => run_events s1 evs2
  | None => None
  end.
Proof.
revert s. induction evs1 as [|ev evs1 IH]; intros s; simpl; [done|].
destruct (step s ev); [apply IH|done].
Qed.

Lemma run_events_inv s evs s' : Inv s → run_events s evs = Some s' → Inv s'.
Proof.
revert s. induction evs as [|ev evs IH]; intros s HI; simpl.
- by intros [= <-].
- destruct (step s ev) as [s1|] eqn:Hstep; [|done].
  apply IH. by eapply step_inv.
Qed.

Lemma run_inv self v s0 : run self v = inr s0 → Inv s0.
Proof.
unfold run. case_match; [done|].
destruct (RemoteClient.getConnectionOptions_start self); intros [= <-];
  by split.
Qed.

(** *** Closing the session *)

Lemma resolve_command_closed i s :
is_closed (resolve_command i s) = is_closed s.
Proof.
unfold resolve_command, is_closed.
destruct (phase s) eqn:Hph; rewrite ?Hph; try done.
destruct (Nat.eqb i i0); simpl; by rewrite ?Hph.
Qed.

Lemma reject_command_closed i s :
is_closed (reject_command i s) = is_closed s.
Proof.
unfold reject_command, is_closed.
destruct (phase s) eqn:Hph; rewrite ?Hph; try done.
destruct (Nat.eqb i i0); simpl; by rewrite ?Hph.
Qed.

Lemma resolve_command_end_calls i s :
end_calls (resolve_command i s) = end_calls s.
Proof.
unfold resolve_command. destruct (phase s); try done. by destruct (Nat.eqb i i0).
Qed.

Lemma reject_command_end_calls i s :
end_calls (reject_command i s) = end_calls s.
Proof.
unfold reject_command. destruct (phase s); try done. by destruct (Nat.eqb i i0).
Qed.

(** [client.end()] is called by the ['error'] handler and by the reactions
  that close the command loop, and by nothing else. *)
Lemma step_end_calls s ev s' :
step s ev = Some s' →
end_calls s' + closed_count s = end_calls s + error_count ev + closed_count s'.
Proof.
unfold closed_count, error_count. intros Hstep.
destruct ev; simpl in Hstep; simpl.
- destruct (phase s) eqn:Hph; simplify_eq.
  unfold on_readFile, is_closed. destruct r; simpl; rewrite Hph; lia.
- destruct (phase s) eqn:Hph; simplify_eq. unfold is_closed. simpl. rewrite Hph. lia.
- case_match; simplify_eq. unfold on_error, is_closed. simpl.
  destruct (phase s) eqn:Hph; simpl; rewrite ?Hph; lia.
- case_match; simplify_eq. unfold on_continue.
  destruct (_finishMethod s); [|lia].
  change (is_closed (set_finishMethod None (resolve_command n s)))
    with (is_closed (resolve_command n s)).
  rewrite resolve_command_closed. simpl. rewrite resolve_command_end_calls. lia.
- destruct (channel s); simplify_eq. unfold on_exec_callback.
  destruct err; simpl.
  + rewrite reject_command_closed, reject_command_end_calls. unfold is_closed. simpl. lia.
  + unfold is_closed. simpl. lia.
- destruct (channel s); simplify_eq. unfold is_closed. simpl. lia.
- destruct (channel s); simplify_eq. unfold is_closed. simpl. lia.
- destruct (channel s); simplify_eq. unfold on_close. simpl.
  destruct (is_zero code); simpl.
  + destruct (callNext e).
    * rewrite resolve_command_closed, resolve_command_end_calls.
      unfold is_closed. simpl. lia.
    * unfold is_closed. simpl. lia.
  + rewrite reject_command_closed, reject_command_end_calls.
    unfold is_closed. simpl. lia.
- simplify_eq. unfold on_tick, is_closed.
  destruct (phase s) eqn:Hph; rewrite ?Hph; try lia.
  + destruct (commands s !! i); simpl; lia.
  + simpl. lia.
Qed.

Lemma client_errors_cons ev evs :
client_errors (ev :: evs) = error_count ev + client_errors evs.
Proof.
unfold client_errors, error_count. rewrite filter_cons.
destruct (is_client_error ev); by simpl.
Qed.

Lemma run_events_end_calls s evs s' :
run_events s evs = Some s' →
end_calls s' + closed_count s = end_calls s + client_errors evs + closed_count s'.
Proof.
revert s. induction evs as [|ev evs IH]; intros s; simpl.
- intros [= <-]. unfold client_errors. simpl. lia.
- destruct (step s ev) as [s1|] eqn:Hstep; [|done]. intros Hrun.
  apply IH in Hrun. apply step_end_calls in Hstep.
  rewrite client_errors_cons. lia.
Qed.

(** *** How the returned promise settles *)

Lemma resolve_command_returned i s :
returned (resolve_command i s) = returned s.
Proof.
unfold resolve_command. destruct (phase s); try done. by destruct (Nat.eqb i i0).
Qed.

Lemma reject_command_returned i s :
returned (reject_command i s) = returned s.
Proof.
unfold reject_command. destruct (phase s); try done. by destruct (Nat.eqb i i0).
Qed.

(** One event leaves the promise as it is, rejects it with the error the
  event carries, or (a [Tick] only) resolves it. *)
Lemma step_returned s ev s' :
step s ev = Some s' →
returned s' = returned s ∨
(returned s = Pending ∧
 ((∃ err, connection_failure err ev ∧ returned s' = Rejected err) ∨
  (∃ v, ev = Tick ∧ returned s' = Resolved v))).
Proof.
intros Hstep. destruct ev; simpl in Hstep.
- destruct (phase s); simplify_eq. unfold on_readFile.
  destruct r; simpl; [|by left].
  destruct (returned s) eqn:Hret; simpl; [|by left..].
  right. split; [done|]. left. exists err. split; [by right|done].
- destruct (phase s); simplify_eq. by left.
- case_match; simplify_eq.
  assert (returned (on_error err s) = reject err (returned s)) as ->.
  { unfold on_error. simpl. by destruct (phase s). }
  destruct (returned s) eqn:Hret; simpl; [|by left..].
  right. split; [done|]. left. exists err. split; [by left|done].
- case_match; simplify_eq. left. unfold on_continue.
  destruct (_finishMethod s); [|done]. simpl. apply resolve_command_returned.
- destruct (channel s); simplify_eq. left. unfold on_exec_callback.
  destruct err; [|done]. by rewrite reject_command_returned.
- destruct (channel s); simplify_eq. by left.
- destruct (channel s); simplify_eq. by left.
- destruct (channel s); simplify_eq. left. unfold on_close. simpl.
  destruct (is_zero code); simpl.
  + destruct (callNext e); [|done]. by rewrite resolve_command_returned.
  + by rewrite reject_command_returned.
- simplify_eq. unfold on_tick.
  assert (Hfin : returned (finish s) = returned s ∨
            returned s = Pending ∧
            ((∃ err, connection_failure err Tick ∧ returned (finish s) = Rejected err) ∨
             (∃ v, Tick = Tick ∧ returned (finish s) = Resolved v))).
  { unfold finish. simpl. destruct (returned s); simpl; [|by left..].
    right. split; [done|]. right. eauto. }
  destruct (phase s); try by left.
  + destruct (commands s !! i); [by left|done].
  + done.
Qed.

Lemma run_events_returned s evs s' :
run_events s evs = Some s' →
returned s' = returned s ∨
(returned s = Pending ∧
 ((∃ err ev, ev ∈ evs ∧ connection_failure err ev ∧ returned s' = Rejected err) ∨
  (∃ v, Tick ∈ evs ∧ returned s' = Resolved v))).
Proof.
revert s. induction evs as [|ev evs IH]; intros s; simpl.
- intros [= <-]. by left.
- destruct (step s ev) as [s1|] eqn:Hstep; [|done]. intros Hrun.
  apply IH in Hrun. apply step_returned in Hstep.
  destruct Hstep as [Heq|(Hpend & Hstep)].
  + rewrite Heq in Hrun.
    destruct Hrun as [?|(? & [(err & ev' & ? & ? & ?)|(v & ? & ?)])]; [by left|..];
      right; (split; [done|]); [left|right].
    * exists err, ev'. by rewrite elem_of_cons; eauto.
    * exists v. by rewrite elem_of_cons; eauto.
  + right. split; [done|].
    destruct Hstep as [(err & Hcf & Hrej)|(v & -> & Hres)].
    * left. exists err, ev. split; [by left|]. split; [done|].
      destruct Hrun as [->|[Hp _]]; [done|congruence].
    * right. exists v. split; [by left|].
      destruct Hrun as [->|[Hp _]]; [done|congruence].
Qed.

(** *** After the first failure *)

Lemma step_halted s ev s' :
Inv s → halted s → step s ev = Some s' →
exec_calls s' = exec_calls s ∧ cmd_results s' = cmd_results s ∧ halted s'.
Proof.
intros [_ _ Hp] Hh Hstep. unfold halted in *. open_state s.
destruct ev; simpl in Hstep;
  destruct Hh as [-> | ->]; destruct Hp as (-> & -> & Hp);
  unfold has_client in Hstep; simpl in Hstep; simplify_eq;
  unfold on_error, on_continue, on_tick, finish; simpl; eauto.
Qed.

Lemma run_events_halted s evs s' :
Inv s → halted s → run_events s evs = Some s' →
exec_calls s' = exec_calls s ∧ cmd_results s' = cmd_results s ∧ halted s'.
Proof.
revert s. induction evs as [|ev evs IH]; intros s HI Hh; simpl.
- by intros [= <-].
- destruct (step s ev) as [s1|] eqn:Hstep; [|done]. intros Hrun.
  destruct (step_halted _ _ _ HI Hh Hstep) as (<- & <- & Hh1).
  eapply IH; [by eapply step_inv|done..].
Qed.

(** In a reachable state a failed result is the last one, the results
  before it are successes, and the loop has halted with exactly the
  commands up to the failed one submitted. *)
Lemma failure_is_last s k r :
Inv s → cmd_results s !! k = Some r → success r = false →
S k = length (cmd_results s) ∧
(∀ j r', j < k → cmd_results s !! j = Some r' → success r' = true) ∧
length (exec_calls s) = S k ∧ halted s.
Proof.
intros [_ _ Hp] Hk Hfail. unfold SshClient.phase_inv, halted in *.
assert (Hno : Forall succeeded (cmd_results s) → False).
{ intros Hall. rewrite Forall_lookup in Hall.
  specialize (Hall _ _ Hk). unfold succeeded in Hall. congruence. }
assert (Hone : one_failure (cmd_results s) →
          S k = length (cmd_results s) ∧
          ∀ j r', j < k → cmd_results s !! j = Some r' → success r' = true).
{ intros (ok & f & Heq & Hok & Hf). rewrite Heq in *.
  rewrite Forall_lookup in Hok.
  destruct (decide (k < length ok)) as [Hlt|Hge].
  - rewrite lookup_app_l in Hk by done. specialize (Hok _ _ Hk).
    unfold succeeded in Hok. congruence.
  - assert (k = length ok) as ->.
    { apply lookup_lt_Some in Hk. rewrite length_app in Hk. simpl in Hk. lia. }
    split; [rewrite length_app; simpl; lia|].
    intros j r' Hj Hr'. rewrite lookup_app_l in Hr' by done. by apply (Hok j). }
destruct (phase s).
1-4: unfold pristine in Hp; destruct_and!;
  match goal with H : cmd_results _ = [] |- _ => by rewrite H in Hk end.
- destruct Hp as (_ & _ & Hall & _). by destruct Hno.
- destruct Hp as (_ & Hall & _). by destruct Hno.
- destruct Hp as (_ & _ & Hlen & Hf & _). destruct (Hone Hf) as [Hk' ?].
  repeat split; [done..|lia|by left].
- destruct Hp as (_ & _ & Hlen & [[Hall _]|Hf] & _); [by destruct Hno|].
  destruct (Hone Hf) as [Hk' ?]. repeat split; [done..|lia|by right].
Qed.

(** *** Waiting for ['continue'] *)

Local Abbreviation closed_with_zero := (closed_with_zero exec_returns).
Local Abbreviation resumed_by_continue := (resumed_by_continue exec_returns).

Lemma run_events_snoc s evs ev :
run_events s (evs ++ [ev]) =
  match run_events s evs with
  | Some s1 => step s1 ev
  | None => None
  end.
Proof.
rewrite run_events_app. destruct (run_events s evs) as [s1|]; [|done].
simpl. by destruct (step s1 ev).
Qed.

Lemma is_zero_eq code : is_zero code = true → code = VNum 0.
Proof. destruct code as [| | |[| |]| | | |]; simpl; congruence. Qed.

(** The resume action is only ever installed by the close handler, on
  exit code 0. *)
Lemma step_finishMethod s ev s' i :
step s ev = Some s' → _finishMethod s' = Some i →
_finishMethod s = Some i ∨
∃ e r, ev = StreamClose (VNum 0) ∧ channel s = Open e r ∧ index e = i.
Proof.
intros Hstep. destruct s. destruct ev; simpl in Hstep; unfold has_client in Hstep;
  simpl in Hstep.
- destruct phase0; simplify_eq. unfold on_readFile. destruct r; simpl; eauto.
- destruct phase0; simplify_eq. simpl; eauto.
- destruct phase0; simplify_eq; simpl; eauto.
- destruct phase0; simplify_eq; unfold on_continue; simpl;
    destruct _finishMethod0; simpl; eauto; done.
- destruct channel0; simplify_eq. unfold on_exec_callback, reject_command. simpl.
  destruct err; simpl; eauto. destruct phase0; simpl; eauto.
  destruct (index e =? i0); simpl; eauto.
- destruct channel0; simplify_eq. simpl; eauto.
- destruct channel0; simplify_eq. simpl; eauto.
- destruct channel0; simplify_eq.
  unfold on_close, reject_command, resolve_command. simpl.
  destruct (is_zero code) eqn:Hz; simpl.
  + apply is_zero_eq in Hz as ->.
    destruct (callNext e); simpl.
    * destruct phase0; simpl; eauto. destruct (index e =? i0); simpl; eauto.
    * intros [= <-]. right. eauto.
  + destruct phase0; simpl; eauto. destruct (index e =? i0); simpl; eauto.
- simplify_eq. unfold on_tick, execute, finish. simpl.
  destruct phase0; simpl; eauto. destruct (commands0 !! i0); simpl; eauto; done.
Qed.

Lemma closed_with_zero_snoc s0 i evs ev :
closed_with_zero s0 i evs → closed_with_zero s0 i (evs ++ [ev]).
Proof.
intros (before & between & sa & e & r & -> & ? & ? & ?).
exists before, (between ++ [ev]), sa, e, r.
split; [by rewrite <- app_assoc|done].
Qed.

Lemma resumed_by_continue_snoc s0 i evs ev :
resumed_by_continue s0 i evs → resumed_by_continue s0 i (evs ++ [ev]).
Proof.
intros (before & between & after & sa & e & r & sb & -> & ?).
exists before, between, (after ++ [ev]), sa, e, r, sb.
split; [|done]. rewrite <- !app_assoc. simpl. by rewrite <- !app_assoc.
Qed.

(** While the resume action of command [i] is installed, the close of its
  stream lies behind. *)
Lemma finishMethod_closed s0 evs s i :
_finishMethod s0 = None →
run_events s0 evs = Some s → _finishMethod s = Some i →
closed_with_zero s0 i evs.
Proof.
intros H0. revert s. induction evs as [|ev evs IH] using rev_ind; intros s.
- simpl. intros [= <-]. congruence.
- rewrite run_events_snoc.
  destruct (run_events s0 evs) as [s1|] eqn:Hrun; [|done].
  intros Hstep Hf.
  destruct (step_finishMethod _ _ _ _ Hstep Hf) as [Hf1|(e & r & -> & Hch & Hi)].
  + apply closed_with_zero_snoc. by eapply IH.
  + exists evs, [], s1, e, r. done.
Qed.

(** The loop moves past a command whose [exec] returned [false] only in
  the ['continue'] handler, through the resume action of that command. *)
Lemma step_advanced s ev s' i :
Inv s → step s ev = Some s' → exec_returns i = false →
advanced i s' →
advanced i s ∨
(ev = ClientContinue ∧ _finishMethod s = Some i ∧ phase s = Executing i ∧
 length (exec_calls s) = S i).
Proof.
intros [_ _ Hp] Hstep Hret. unfold advanced. open_state s.
destruct ev; simpl in Hstep; unfold has_client in Hstep; simpl in Hstep.
- destruct phase0; simplify_eq. unfold on_readFile.
  destruct r; simpl; intros [?|?]; eauto; done.
- destruct phase0; simplify_eq. simpl. intros [?|?]; eauto; done.
- destruct phase0; simplify_eq; simpl; intros [?|?]; eauto; done.
- unfold on_continue, resolve_command in Hstep. simpl in Hstep.
  destruct _finishMethod0 as [j|]; [|destruct phase0; simplify_eq; simpl; eauto].
  destruct phase0; simplify_eq; simpl; eauto.
  destruct channel0; [|by destruct_and!..].
  destruct Hp as (? & ? & ? & ? & [= ->] & ?). rewrite Nat.eqb_refl. simpl.
  intros [[= ->]|?]; eauto.
- destruct channel0; simplify_eq. unfold on_exec_callback, reject_command. simpl.
  destruct err; simpl; [|eauto].
  destruct phase0; simpl; eauto.
  destruct (index e =? i0); simpl; eauto. intros [?|?]; eauto; done.
- destruct channel0; simplify_eq. simpl; eauto.
- destruct channel0; simplify_eq. simpl; eauto.
- destruct channel0; simplify_eq.
  unfold on_close, reject_command, resolve_command. simpl.
  destruct phase0; try by (destruct_and!; simplify_eq). simpl in Hp.
  destruct Hp as (? & ? & ? & -> & ? & Hcn & ?).
  rewrite Nat.eqb_refl.
  destruct (is_zero code); simpl; [|intros [?|?]; eauto; done].
  destruct (callNext e) eqn:Hcall; simpl; [|eauto].
  intros [[= ->]|?]; eauto. congruence.
- simplify_eq. unfold on_tick, execute, finish. simpl.
  destruct phase0; simpl; eauto.
  + destruct Hp as (? & Hl & ?).
    destruct (commands0 !! i0); simpl; [|intros [?|?]; eauto; done].
    rewrite length_app. simpl. intros [?|Hlt]; [done|].
    destruct (decide (S i = i0)) as [<-|?]; [by left; left|left; right; lia].
  + intros [?|?]; eauto; done.
Qed.

Lemma gate s0 evs s i :
Inv s0 → _finishMethod s0 = None →
run_events s0 evs = Some s →
exec_returns i = false → advanced i s →
advanced i s0 ∨ resumed_by_continue s0 i evs.
Proof.
intros HI0 H0. revert s. induction evs as [|ev evs IH] using rev_ind; intros s.
- simpl. intros [= <-] _ ?. by left.
- rewrite run_events_snoc.
  destruct (run_events s0 evs) as [s1|] eqn:Hrun; [|done].
  intros Hstep Hret Hadv.
  pose proof (run_events_inv _ _ _ HI0 Hrun) as HI1.
  destruct (step_advanced _ _ _ _ HI1 Hstep Hret Hadv)
    as [Hadv1|(-> & Hf & Hph & Hlen)].
  + destruct (IH _ eq_refl Hret Hadv1) as [?|Hres]; [by left|right].
    by apply resumed_by_continue_snoc.
  + right.
    destruct (finishMethod_closed _ _ _ _ H0 Hrun Hf)
      as (before & between & sa & e & r & -> & Hsa & Hch & Hi).
    exists before, between, [], sa, e, r, s1.
    split; [by rewrite <- app_assoc|done].
Qed.

(** *** A session that is served to its end *)

Lemma set_results_twice rs rs' s :
set_results rs (set_results rs' s) = set_results rs s.
Proof. done. Qed.

Lemma fold_append_stdout out r :
fold_left (λ c d, append_stdout d c) out r =
  {| command := command r; success := success r;
     stdout := fold_left String.append out (stdout r);
     stderr := stderr r; exitCode := exitCode r; error := error r |}.
Proof.
revert r. induction out as [|d out IH]; intros r; simpl; [by destruct r|].
by rewrite IH.
Qed.

Lemma fold_append_stderr err r :
fold_left (λ c d, append_stderr d c) err r =
  {| command := command r; success := success r; stdout := stdout r;
     stderr := fold_left String.append err (stderr r);
     exitCode := exitCode r; error := error r |}.
Proof.
revert r. induction err as [|d err IH]; intros r; simpl; [by destruct r|].
by rewrite IH.
Qed.

Lemma run_stdout s e ok cur out :
channel s = Open e (length ok) → cmd_results s = ok ++ [cur] →
run_events s (StreamData <$> out) =
  Some (set_results (ok ++ [fold_left (λ c d, append_stdout d c) out cur]) s).
Proof.
revert s cur. induction out as [|d out IH]; intros s cur Hch Hrs; simpl.
- rewrite <- Hrs. by destruct s.
- rewrite Hch. unfold on_data. rewrite Hrs, alter_last.
  erewrite IH; [|done..]. by rewrite set_results_twice.
Qed.

Lemma run_stderr s e ok cur err :
channel s = Open e (length ok) → cmd_results s = ok ++ [cur] →
run_events s (StderrData <$> err) =
  Some (set_results (ok ++ [fold_left (λ c d, append_stderr d c) err cur]) s).
Proof.
revert s cur. induction err as [|d err IH]; intros s cur Hch Hrs; simpl.
- rewrite <- Hrs. by destruct s.
- rewrite Hch. unfold on_stderr_data. rewrite Hrs, alter_last.
  erewrite IH; [|done..]. by rewrite set_results_twice.
Qed.

(** The events of one stream, up to its close. *)
Lemma run_stream s e ok cmd out err code :
channel s = Open e (length ok) → cmd_results s = ok ++ [new_result cmd] →
run_events s (stream_events out err code) =
Some (on_close e (length ok) code
        (set_results
           (ok ++
            [{| command := cmd; success := true; stdout := received out;
                stderr := received err; exitCode := VUndefined;
                error := None |}]) s)).
Proof.
intros Hch Hrs. unfold stream_events.
rewrite run_events_app.
erewrite run_stdout; [|done..].
rewrite run_events_app.
erewrite run_stderr; [|done..]. rewrite set_results_twice.
simpl. rewrite Hch.
by rewrite fold_append_stderr, fold_append_stdout.
Qed.

Lemma run_events_cons s ev evs :
run_events s (ev :: evs) =
  match step s ev with
  | Some s1 => run_events s1 evs
  | None => None
  end.
Proof. done. Qed.

(** The executor of command [i] runs and [exec] calls back. *)
Lemma step_execute s i cmd :
phase s = Next i → commands s !! i = Some cmd →
step s Tick = Some (execute exec_returns i cmd s).
Proof. intros Hph Hcmd. cbn [step]. unfold on_tick. by rewrite Hph, Hcmd. Qed.

Lemma step_exec_callback s i cmd err :
step (execute exec_returns i cmd s) (ExecCallback err) =
Some (on_exec_callback
        {| index := i; exec_command := cmd;
           callNext := exec_returns (length (exec_calls s)) |} err
        (execute exec_returns i cmd s)).
Proof. done. Qed.

Lemma state_ext (s t : State) :
this s = this t → commands s = commands t → phase s = phase t →
channel s = channel t → cmd_results s = cmd_results t →
_finishMethod s = _finishMethod t → execResult s = execResult t →
returned s = returned t → readFile_calls s = readFile_calls t →
connect_calls s = connect_calls t → exec_calls s = exec_calls t →
end_calls s = end_calls t → s = t.
Proof. destruct s, t. cbn. intros. by subst. Qed.

(** Reading a field through the setters that a handler applied. *)
Ltac read_fields :=
  cbn [this commands phase channel cmd_results _finishMethod execResult
       returned readFile_calls connect_calls exec_calls end_calls
       set_this set_phase set_channel set_results set_finishMethod
       set_execResult set_returned call_readFile call_connect call_exec
       call_end execute on_exec_callback after_command index callNext
       exec_command].

(** The close handler on a successful command, and on a failed one. *)
Lemma close_success s i cmd r code :
is_zero code = true →
let e := {| index := i; exec_command := cmd;
            callNext := exec_returns (length (exec_calls s)) |} in
let s2 := on_close e (length (cmd_results s)) code
            (set_results (cmd_results s ++ [r])
               (on_exec_callback e None (execute exec_returns i cmd s))) in
(if exec_returns (length (exec_calls s)) then Some s2 else step s2 ClientContinue)
= Some (after_command cmd (set_exitCode code r) (Next (S i)) s).
Proof.
intros Hz e s2. unfold s2, on_close. rewrite Hz. cbn [negb]. unfold e. read_fields.
destruct (exec_returns (length (exec_calls s))).
- unfold resolve_command. read_fields. rewrite Nat.eqb_refl. f_equal.
  apply state_ext; read_fields; try reflexivity. by rewrite alter_last.
- cbn [step has_client]. read_fields. unfold on_continue. read_fields.
  unfold resolve_command. read_fields. rewrite Nat.eqb_refl. f_equal.
  apply state_ext; read_fields; try reflexivity. by rewrite alter_last.
Qed.

Lemma close_failure s i cmd r code :
is_zero code = false →
let e := {| index := i; exec_command := cmd;
            callNext := exec_returns (length (exec_calls s)) |} in
on_close e (length (cmd_results s)) code
  (set_results (cmd_results s ++ [r])
     (on_exec_callback e None (execute exec_returns i cmd s)))
= after_command cmd (fail_with nonZeroExit (set_exitCode code r)) Draining s.
Proof.
intros Hz e. unfold on_close. rewrite Hz. cbn [negb].
unfold reject_command, e. read_fields. rewrite Nat.eqb_refl.
apply state_ext; read_fields; try reflexivity. by rewrite !alter_last.
Qed.

Lemma serve_success s i cmd out err code :
phase s = Next i → commands s !! i = Some cmd → length (exec_calls s) = i →
is_zero code = true →
run_events s
  (Tick :: ExecCallback None :: stream_events out err code ++
   (if exec_returns i then [] else [ClientContinue])) =
Some (after_command cmd (result_of cmd (Runs out err code)) (Next (S i)) s).
Proof.
intros Hph Hcmd Hlen Hz.
rewrite run_events_cons, (step_execute _ _ _ Hph Hcmd).
rewrite run_events_cons, step_exec_callback.
rewrite run_events_app.
erewrite (run_stream _ _ (cmd_results s) cmd); [|done..].
pose proof (close_success s i cmd
              {| command := cmd; success := true; stdout := received out;
                 stderr := received err; exitCode := VUndefined;
                 error := None |} code Hz) as Hclose.
cbn zeta in Hclose. unfold result_of. rewrite Hz. subst i.
destruct (exec_returns (length (exec_calls s))).
- exact Hclose.
- rewrite run_events_cons, Hclose. reflexivity.
Qed.

Lemma serve_exit_failure s i cmd out err code :
phase s = Next i → commands s !! i = Some cmd →
is_zero code = false →
run_events s (Tick :: ExecCallback None :: stream_events out err code) =
Some (after_command cmd (result_of cmd (Runs out err code)) Draining s).
Proof.
intros Hph Hcmd Hz.
rewrite run_events_cons, (step_execute _ _ _ Hph Hcmd).
rewrite run_events_cons, step_exec_callback.
erewrite (run_stream _ _ (cmd_results s) cmd); [|done..].
rewrite (close_failure _ _ _ _ _ Hz).
unfold result_of. by rewrite Hz.
Qed.

Lemma serve_start_failure s i cmd err :
phase s = Next i → commands s !! i = Some cmd →
run_events s [Tick; ExecCallback (Some err)] =
Some (after_command cmd (result_of cmd (FailsToStart err)) Draining s).
Proof.
intros Hph Hcmd.
rewrite run_events_cons, (step_execute _ _ _ Hph Hcmd).
rewrite run_events_cons, step_exec_callback. cbn [run_events]. f_equal.
unfold on_exec_callback at 1. unfold reject_command. read_fields.
rewrite Nat.eqb_refl.
apply state_ext; read_fields; try reflexivity. by rewrite alter_last.
Qed.

Lemma drop_head {A} (l : list A) i x rest :
drop i l = x :: rest → l !! i = Some x ∧ drop (S i) l = rest.
Proof.
intros H. split.
- rewrite <- (Nat.add_0_r i), <- lookup_drop. by rewrite H.
- change (S i) with (1 + i). rewrite Nat.add_comm, <- drop_drop. by rewrite H.
Qed.

Lemma serve_session script cmds s i :
phase s = Next i → length (exec_calls s) = i →
drop i (commands s) = cmds → length script = length cmds →
∃ s', run_events s (session_events exec_returns script i) = Some s' ∧
      cmd_results s' = cmd_results s ++ expected_results cmds script ∧
      exec_calls s' = exec_calls s ++ (command <$> expected_results cmds script) ∧
      closing s s'.
Proof.
revert cmds s i.
induction script as [|b script IH]; intros cmds s i Hph Hlen Hdrop Hscript.
- destruct cmds; [|done]. simpl. unfold on_tick. rewrite Hph.
  assert (commands s !! i = None) as ->.
  { apply lookup_ge_None. apply (f_equal length) in Hdrop.
    rewrite length_drop in Hdrop. simpl in Hdrop. lia. }
  exists (finish s). unfold closing. simpl. by rewrite !app_nil_r.
- destruct cmds as [|cmd cmds]; [done|].
  apply drop_head in Hdrop as [Hcmd Hdrop]. simpl in Hscript.
  assert (Hfail : ∀ r,
            ∃ s', run_events (after_command cmd r Draining s) [Tick] = Some s' ∧
                  cmd_results s' = cmd_results s ++ [r] ∧
                  exec_calls s' = exec_calls s ++ [cmd] ∧ closing s s').
  { intros r. eexists. simpl. split; [done|]. by unfold closing. }
  destruct b as [err|out err code]; cbn [session_events expected_results succeeds].
  + change (Tick :: [ExecCallback (Some err); Tick])
      with ([Tick; ExecCallback (Some err)] ++ [Tick]).
    rewrite run_events_app. erewrite serve_start_failure; [|done..].
    apply Hfail.
  + destruct (is_zero code) eqn:Hz.
    * rewrite app_comm_cons, app_comm_cons, app_assoc.
      rewrite run_events_app.
      rewrite <- !app_comm_cons.
      erewrite serve_success; [|done..].
      destruct (IH cmds
                  (after_command cmd (result_of cmd (Runs out err code)) (Next (S i)) s)
                  (S i)) as (s' & Hrun & Hrs & Hex & Hcl).
      { done. } { simpl. rewrite length_app. simpl. lia. } { done. } { lia. }
      exists s'. split; [done|]. simpl in *.
      rewrite Hrs, Hex, <- !app_assoc. split; [done|]. split; [done|].
      unfold closing in *. by simpl in Hcl.
    * rewrite app_comm_cons, app_comm_cons, run_events_app.
      erewrite serve_exit_failure; [|done..].
      specialize (Hfail (result_of cmd (Runs out err code))).
      simpl in Hfail |- *. rewrite ?Hz in Hfail |- *. done.
Qed.

(** *** The start of a [run] call *)

Lemma nonempty_checkString str :
str ≠ "" → checkString (VStr str) 1 = true.
Proof.
intros Hne. simpl. apply bool_decide_eq_true. destruct str; [done|simpl; lia].
Qed.


Lemma run_throws self v err :
run self v = inl err →
checkString v 1 = false ∧ checkArray v = false ∧
err = ArgError "Invalid command(s) (arg #1)".
Proof.
unfold run. destruct (checkString v 1) eqn:Hs; simpl.
- by destruct (RemoteClient.getConnectionOptions_start self).
- destruct (checkArray v); simpl; [|by intros [= <-]].
  by destruct (RemoteClient.getConnectionOptions_start self).
Qed.

Lemma run_accepts self v :
checkString v 1 = true ∨ checkArray v = true → ∃ s0, run self v = inr s0.
Proof.
unfold run. intros Hok.
destruct (checkString v 1) eqn:Hs; simpl.
- destruct (RemoteClient.getConnectionOptions_start self); eauto.
- destruct Hok as [?|Ha]; [done|]. rewrite Ha. simpl.
  destruct (RemoteClient.getConnectionOptions_start self); eauto.
Qed.

Lemma run_initial self v s0 :
run self v = inr s0 →
Inv s0 ∧ _finishMethod s0 = None ∧ exec_calls s0 = [] ∧
returned s0 = Pending ∧
(phase s0 = LoadingKey ∨ phase s0 = Connecting) ∧
commands s0 = (if checkString v 1 then [v] else array_items v).
Proof.
intros Hrun. split; [by eapply run_inv|]. revert Hrun. unfold run.
destruct (checkString v 1); simpl.
- destruct (RemoteClient.getConnectionOptions_start self);
    intros [= <-]; simpl; eauto 10.
- destruct (checkArray v); [|done]. simpl.
  destruct (RemoteClient.getConnectionOptions_start self);
    intros [= <-]; simpl; eauto 10.
Qed.

Lemma resolve_command_commands i s : commands (resolve_command i s) = commands s.
Proof.
unfold resolve_command. destruct (phase s); try done. by destruct (Nat.eqb i i0).
Qed.

Lemma reject_command_commands i s : commands (reject_command i s) = commands s.
Proof.
unfold reject_command. destruct (phase s); try done. by destruct (Nat.eqb i i0).
Qed.

Lemma step_commands s ev s' : step s ev = Some s' → commands s' = commands s.
Proof.
intros Hstep. destruct ev; simpl in Hstep.
- destruct (phase s); simplify_eq. unfold on_readFile. by destruct r.
- by destruct (phase s); simplify_eq.
- case_match; simplify_eq. unfold on_error. simpl. by destruct (phase s).
- case_match; simplify_eq. unfold on_continue.
  destruct (_finishMethod s); [|done]. simpl. apply resolve_command_commands.
- destruct (channel s); simplify_eq. unfold on_exec_callback.
  destruct err; [|done]. by rewrite reject_command_commands.
- by destruct (channel s); simplify_eq.
- by destruct (channel s); simplify_eq.
- destruct (channel s); simplify_eq. unfold on_close. simpl.
  destruct (is_zero code); simpl.
  + destruct (callNext e); [|done]. by rewrite resolve_command_commands.
  + by rewrite reject_command_commands.
- simplify_eq. unfold on_tick. destruct (phase s); try done.
  by destruct (commands s !! i).
Qed.

Lemma run_events_commands s evs s' :
run_events s evs = Some s' → commands s' = commands s.
Proof.
revert s. induction evs as [|ev evs IH]; intros s; simpl.
- by intros [= <-].
- destruct (step s ev) as [s1|] eqn:Hstep; [|done]. intros Hrun.
  rewrite (IH _ Hrun). by eapply step_commands.
Qed.

Lemma reachable_inv self v s0 evs s :
run self v = inr s0 → run_events s0 evs = Some s → Inv s.
Proof.
intros Hrun Hevs. eapply run_events_inv; [|done]. by eapply run_inv.
Qed.

Lemma success_partition (rs : list ExecutionResult) :
length (filter (λ r, success r = true) rs) +
length (filter (λ r, success r = false) rs) = length rs.
Proof.
induction rs as [|r rs IH]; [done|]. rewrite !filter_cons.
destruct (success r); simpl; lia.
Qed.

(** A settled promise stays as it is. *)
Lemma rejected_forever s evs s' err :
run_events s evs = Some s' → returned s = Rejected err →
returned s' = Rejected err.
Proof.
intros Hrun Hrej. destruct (run_events_returned _ _ _ Hrun) as [->|[Hp _]];
  [done|congruence].
Qed.

(** A stream is open, or a start callback is due, only for the command
  whose promise is pending. *)
Lemma inv_open s e r :
Inv s → channel s = Open e r →
phase s = Executing (index e) ∧ r = index e ∧
length (cmd_results s) = S (index e) ∧ length (exec_calls s) = S (index e) ∧
callNext e = exec_returns (index e).
Proof.
intros [_ _ Hp] Hch. unfold SshClient.phase_inv, pristine in Hp.
destruct (phase s); rewrite Hch in Hp; try by (destruct_and!; congruence).
destruct Hp as (? & _ & _ & <- & -> & ? & ? & _). done.
Qed.


(** *** The properties of [run] *)


(** C2: a start error and a non-zero exit both leave a failed result at
  the end of [results]; a failed result is always the last one, every
  result before it is a success, exactly the commands up to the failed
  one have been submitted, and whatever happens afterwards nothing more
  is submitted or recorded. *)
Theorem first_failure_is_last_result (self : RemoteClient.t) (v : Value)
  (s0 : State) (evs : list Event) (s : State) :
run self v = inr s0 → run_events s0 evs = Some s →
(∀ err s', step s (ExecCallback (Some err)) = Some s' →
   ∃ r, last (cmd_results s') = Some r ∧ success r = false ∧
        error r = Some err) ∧
(∀ code s', step s (StreamClose code) = Some s' → code ≠ VNum 0 →
   ∃ r, last (cmd_results s') = Some r ∧ success r = false ∧
        exitCode r = code) ∧
(∀ k r, cmd_results s !! k = Some r → success r = false →
   S k = length (cmd_results s) ∧
   (∀ j r', j < k → cmd_results s !! j = Some r' → success r' = true) ∧
   exec_calls s = take (S k) (commands s0) ∧
   ∀ evs' s', run_events s evs' = Some s' →
     exec_calls s' = exec_calls s ∧ cmd_results s' = cmd_results s).
Proof.
intros Hrun Hevs. pose proof (reachable_inv _ _ _ _ _ Hrun Hevs) as HI.
split; [|split].
- intros err s' Hstep. simpl in Hstep.
  destruct (channel s) as [|e|]; simplify_eq.
  unfold on_exec_callback. simpl. rewrite alter_last.
  assert (∀ t, cmd_results (reject_command (index e) t) = cmd_results t) as ->.
  { intros t. unfold reject_command. destruct (phase t); try done.
    by destruct (index e =? i). }
  simpl. rewrite last_snoc. eauto.
- intros code s' Hstep Hcode. simpl in Hstep.
  destruct (channel s) as [| |e r] eqn:Hch; simplify_eq.
  destruct (inv_open _ _ _ HI Hch) as (Hph & -> & Hlen & _).
  destruct (snoc_of_length _ _ Hlen) as (ok & cur & Hrs & <-).
  assert (is_zero code = false) as Hz.
  { destruct (is_zero code) eqn:Hz; [|done]. by apply is_zero_eq in Hz. }
  unfold on_close. simpl. rewrite Hz. simpl.
  assert (∀ t, cmd_results (reject_command (index e) t) = cmd_results t) as ->.
  { intros t. unfold reject_command. destruct (phase t); try done.
    by destruct (index e =? i). }
  simpl. rewrite Hrs, !alter_last, last_snoc. eauto.
- intros k r Hk Hfail.
  destruct (failure_is_last _ _ _ HI Hk Hfail) as (Hlast & Hbefore & Hlen & Hh).
  split; [done|]. split; [done|]. split.
  + rewrite <- Hlen, <- (run_events_commands _ _ _ Hevs). apply HI.
  + intros evs' s' Hevs'.
    by destruct (run_events_halted _ _ _ HI Hh Hevs') as (? & ? & _).
Qed.

(** C3: the summary that [run] resolves with counts every result once,
  holds no more results than commands were requested, and lists the
  results of exactly the commands submitted, in the order of the
  command list. *)
Theorem summary_counts_and_order (self : RemoteClient.t) (v : Value)
  (s0 : State) (evs : list Event) (s : State) (summary : SshExecutionResults) :
run self v = inr s0 → run_events s0 evs = Some s →
returned s = Resolved summary →
successCount summary + failureCount summary = length (results summary) ∧
length (results summary) ≤ commandCount summary ∧
commandCount summary = length (commands s0) ∧
commands s0 = (if checkString v 1 then [v] else array_items v) ∧
command <$> results summary
  = take (length (results summary)) (commands s0) ∧
exec_calls s = command <$> results summary.
Proof.
intros Hrun Hevs Hres.
pose proof (reachable_inv _ _ _ _ _ Hrun Hevs) as [He Hc Hp].
pose proof (run_initial _ _ _ Hrun) as (_ & _ & _ & _ & _ & Hcmds).
pose proof (run_events_commands _ _ _ Hevs) as Hsame. rewrite Hsame in *.
unfold SshClient.phase_inv, pristine, untallied in Hp.
destruct (phase s); try by (destruct_and!; rewrite Hres in *).
destruct Hp as (_ & _ & Hlen & _ & Hsum & _ & Hret).
rewrite (Hret _ Hres), Hsum, ?Hsame. simpl.
split; [apply success_partition|].
assert (length (cmd_results s) ≤ length (commands s0)).
{ apply (f_equal length) in Hc. rewrite length_fmap, length_take in Hc. lia. }
repeat split; try done; try lia. by rewrite Hc, <- Hlen.
Qed.

(** C4: the commands are submitted in the order of the list, none twice
  and none skipped, whatever ['continue'] events arrive.  When [exec]
  returned [false] for command [i], command [i + 1] is submitted only
  after the stream of command [i] has closed and a ['continue'] has
  arrived after that close.  A ['continue'] that finds no resume action
  installed changes nothing. *)
Theorem continue_gates_next_command (self : RemoteClient.t) (v : Value)
  (s0 : State) (evs : list Event) (s : State) :
run self v = inr s0 → run_events s0 evs = Some s →
exec_calls s = take (length (exec_calls s)) (commands s0) ∧
(∀ i, exec_returns i = false → S i < length (exec_calls s) →
   resumed_by_continue s0 i evs) ∧
(_finishMethod s = None → has_client s = true →
   step s ClientContinue = Some s).
Proof.
intros Hrun Hevs.
pose proof (run_initial _ _ _ Hrun) as (HI0 & Hf0 & Hex0 & _ & Hph0 & _).
pose proof (run_events_inv _ _ _ HI0 Hevs) as HI.
split; [|split].
- rewrite <- (run_events_commands _ _ _ Hevs). apply HI.
- intros i Hret Hlt.
  destruct (gate s0 evs s i HI0 Hf0 Hevs Hret) as [[Hph|Hlen]|Hres];
    [by right|..|done].
  + destruct Hph0 as [Hph0|Hph0]; congruence.
  + rewrite Hex0 in Hlen. simpl in Hlen. lia.
- intros Hf Hcl. simpl. rewrite Hcl. unfold on_continue. by rewrite Hf.
Qed.

(** *** Rejections of a session come from ['error'] events *)






(** C7: a non-empty string and the one-element array that holds it start
  [run] in the same state, with the string as the only command, so that
  whatever the transport does the two calls return the same. *)
Theorem single_string_is_one_element_list (self : RemoteClient.t) (str : string) :
str ≠ "" →
run self (VStr str) = run self (VArr [VStr str]) ∧
(∃ s0, run self (VStr str) = inr s0 ∧ commands s0 = [VStr str] ∧
       commandCount (execResult s0) = 1) ∧
∀ evs, run_then exec_returns self (VStr str) evs
       = run_then exec_returns self (VArr [VStr str]) evs.
Proof.
intros Hne.
assert (Heq : run self (VStr str) = run self (VArr [VStr str])).
{ unfold run. by rewrite (nonempty_checkString _ Hne). }
split; [done|]. split.
- destruct (run_accepts self (VStr str)) as [s0 Hs0].
  { left. by apply nonempty_checkString. }
  exists s0. split; [done|].
  pose proof (run_initial _ _ _ Hs0) as ([_ _ Hp] & _ & _ & _ & Hph & Hcmds).
  rewrite (nonempty_checkString _ Hne) in Hcmds. split; [done|].
  unfold SshClient.phase_inv, pristine, untallied in Hp.
  destruct Hph as [Hph|Hph]; rewrite Hph in Hp; destruct_and!;
    match goal with H : execResult s0 = _ |- _ => rewrite H, Hcmds end; done.
- intros evs. unfold run_then. by rewrite Heq.
Qed.

End Facts.

Ltac by_evaluation := vm_compute; reflexivity.


Lemma first_failure_is_last_result_witness :
  run password_client build_commands = inr build_start ∧
  run_events always_wait build_start build_events
    = Some (build_state build_events) ∧
  cmd_results (build_state build_events) !! 1 = Some failed_test ∧
  success failed_test = false ∧
  S 1 = length (cmd_results (build_state build_events)) ∧
  exec_calls (build_state build_events) = take 2 (commands build_start).
Proof.
  assert (Hrun : run password_client build_commands = inr build_start)
    by by_evaluation.
  assert (Hevs : run_events always_wait build_start build_events
                 = Some (build_state build_events)) by by_evaluation.
  assert (Hk : cmd_results (build_state build_events) !! 1 = Some failed_test)
    by by_evaluation.
  assert (Hfail : success failed_test = false) by by_evaluation.
  split; [exact Hrun|]. split; [exact Hevs|]. split; [exact Hk|].
  split; [exact Hfail|].
  destruct (first_failure_is_last_result always_wait password_client build_commands
              build_start build_events (build_state build_events)
              Hrun Hevs) as (_ & _ & H).
  destruct (H 1 failed_test Hk Hfail) as (Hlast & _ & Hexec & _).
  exact (conj Hlast Hexec).
Defined.

Lemma summary_counts_and_order_witness :
  run password_client build_commands = inr build_start ∧
  run_events always_wait build_start build_events
    = Some (build_state build_events) ∧
  returned (build_state build_events)
    = Resolved (summary_of 3 (cmd_results (build_state build_events))) ∧
  successCount (summary_of 3 (cmd_results (build_state build_events))) +
  failureCount (summary_of 3 (cmd_results (build_state build_events)))
    = length (results (summary_of 3 (cmd_results (build_state build_events)))) ∧
  length (results (summary_of 3 (cmd_results (build_state build_events))))
    ≤ commandCount (summary_of 3 (cmd_results (build_state build_events))).
Proof.
  assert (Hrun : run password_client build_commands = inr build_start)
    by by_evaluation.
  assert (Hevs : run_events always_wait build_start build_events
                 = Some (build_state build_events)) by by_evaluation.
  assert (Hres : returned (build_state build_events)
                 = Resolved (summary_of 3 (cmd_results (build_state build_events))))
    by by_evaluation.
  split; [exact Hrun|]. split; [exact Hevs|]. split; [exact Hres|].
  destruct (summary_counts_and_order always_wait password_client build_commands
              build_start build_events (build_state build_events)
              (summary_of 3 (cmd_results (build_state build_events)))
              Hrun Hevs Hres) as (Hsum & Hle & _).
  exact (conj Hsum Hle).
Defined.

Lemma continue_gates_next_command_witness :
  run password_client build_commands = inr build_start ∧
  run_events always_wait build_start build_events
    = Some (build_state build_events) ∧
  always_wait 0 = false ∧
  1 < length (exec_calls (build_state build_events)) ∧
  resumed_by_continue always_wait build_start 0 build_events.
Proof.
  assert (Hrun : run password_client build_commands = inr build_start)
    by by_evaluation.
  assert (Hevs : run_events always_wait build_start build_events
                 = Some (build_state build_events)) by by_evaluation.
  assert (Hret : always_wait 0 = false) by by_evaluation.
  assert (Hlt : 1 < length (exec_calls (build_state build_events))).
  { assert (Hlen : length (exec_calls (build_state build_events)) = 2)
      by by_evaluation.
    rewrite Hlen. apply Nat.lt_succ_diag_r. }
  split; [exact Hrun|]. split; [exact Hevs|]. split; [exact Hret|].
  split; [exact Hlt|].
  destruct (continue_gates_next_command always_wait password_client build_commands
              build_start build_events (build_state build_events)
              Hrun Hevs) as (_ & Hgate & _).
  exact (Hgate 0 Hret Hlt).
Defined.





Lemma single_string_is_one_element_list_witness :
  "ls" ≠ "" ∧
  run password_client (VStr "ls") = run password_client (VArr [VStr "ls"]).
Proof.
  assert (Hne : "ls" ≠ "") by discriminate.
  split; [exact Hne|].
  exact (proj1 (single_string_is_one_element_list always_wait password_client
                  "ls" Hne)).
Defined.

End SshClientFacts.

(** * Further properties of RemoteClient *)
Module RemoteClientMore.
Import ArgValidator RemoteClient RemoteClientFacts.

(** X1: the constructor returns an instance exactly when host and username
    are non-empty strings and the password or the private key is one; what
    it throws otherwise is an [ArgError]. *)
Theorem constructor_accepts_iff (options : ClientConfig) :
  ((∃ c, new options = inr c) ↔
   is_text (cfg_host options) ∧ is_text (cfg_username options) ∧
   (is_text (cfg_password options) ∨ is_text (cfg_privateKey options))) ∧
  (∀ err, new options = inl err → ∃ message, err = ArgError message).
Proof.
  unfold new. rewrite <- !checkString_text.
  destruct (checkString (cfg_host options) 1); simpl;
    [|split; [split; [intros [? [=]]|intros (? & _); done]|intros ? [= <-]; eauto]].
  destruct (checkString (cfg_username options) 1); simpl;
    [|split; [split; [intros [? [=]]|intros (_ & ? & _); done]|intros ? [= <-]; eauto]].
  destruct (checkString (cfg_privateKey options) 1) eqn:Hk;
    destruct (checkString (cfg_password options) 1) eqn:Hp; simpl.
  - apply checkString_text in Hk as (k & -> & _). simpl.
    split; [split; eauto|intros ? [=]].
  - apply checkString_text in Hk as (k & -> & _). simpl.
    split; [split; eauto|intros ? [=]].
  - apply checkString_text in Hp as (p & -> & _). simpl.
    split; [split; eauto|intros ? [=]].
  - split; [split; [intros [? [=]]|intros (_ & _ & [?|?]); done]|].
    intros ? [= <-]. eauto.
Qed.

Lemma new_identity options c :
  new options = inr c →
  _host c = cfg_host options ∧ _username c = cfg_username options ∧
  _port c = (if checkNumber (cfg_port options) 1 then cfg_port options
             else VNum 22) ∧
  is_text (cfg_host options) ∧ is_text (cfg_username options).
Proof.
  unfold new. rewrite <- !checkString_text. intros H.
  destruct (checkString (cfg_host options) 1); [|done].
  destruct (checkString (cfg_username options) 1); [|done]. simpl in H.
  destruct (is_undefined _ && is_undefined _); [done|].
  injection H as <-. simpl. by destruct (checkNumber (cfg_port options) 1).
Qed.

Section Sequential.
Variable disk : nat → Value → ReadResult.

(** X2: whatever was resolved before, a resolution carries the host and the
    username given to the constructor, and as port the configured number
    when it is at least 1 and 22 otherwise. *)
Theorem resolved_options_carry_the_address
    (options : ClientConfig) (c this this' : t) (n : nat)
    (reads reads' : list Value) (ps : list (Promise ConnectionOptions))
    (opts : ConnectionOptions) :
  new options = inr c →
  getConnectionOptions_times disk n c [] = (this, reads, ps) →
  getConnectionOptions disk this reads = (this', reads', Resolved opts) →
  host opts = cfg_host options ∧ is_text (host opts) ∧
  username opts = cfg_username options ∧ is_text (username opts) ∧
  port opts = (if checkNumber (cfg_port options) 1 then cfg_port options
               else VNum 22) ∧
  ∃ p, port opts = VNum p ∧ (1 ≤ p)%Z.
Proof.
  intros Hnew Htimes Hget.
  pose proof (new_identity _ _ Hnew) as (Hh & Hu & Hp & Hhost & Huser).
  pose proof (getConnectionOptions_times_cache disk _ _ _ _ _ _ _
                (cache_of_new disk _ _ Hnew) Htimes) as [Hsame _].
  assert (Hfields : host opts = _host c ∧ username opts = _username c ∧
                    port opts = _port c).
  { unfold getConnectionOptions, getConnectionOptions_start in Hget.
    rewrite Hsame in Hget. simpl in Hget.
    destruct (negb (truthy (_privateKey c))); [by injection Hget as <- <- <-|].
    destruct (truthy (_privateKeyData this)); [by injection Hget as <- <- <-|].
    destruct (disk (length reads) (_privateKey c)); simpl in Hget; [done|].
    by injection Hget as <- <- <-. }
  destruct Hfields as (-> & -> & ->). rewrite Hh, Hu, Hp.
  repeat split; try done.
  destruct (checkNumber (cfg_port options) 1) eqn:Hn.
  - destruct (cfg_port options); simpl in Hn; try done.
    apply bool_decide_eq_true in Hn. eauto.
  - exists 22%Z. split; [done|lia].
Qed.

(** X3: a client configured without a private key never reads storage and
    never fails: every resolution resolves on the spot with the password,
    whatever the storage would answer. *)
Theorem password_client_never_reads (options : ClientConfig) (c : t) (n : nat) :
  new options = inr c →
  checkString (cfg_privateKey options) 1 = false →
  getConnectionOptions_times disk n c [] =
    (c, [], replicate n (Resolved (with_password (connectionOptions c)
                                     (cfg_password options)))).
Proof.
  intros Hnew Hcfg.
  pose proof (new_fields _ _ Hnew) as (_ & _ & _ & Hpw & Hkey & Hpass).
  rewrite Hcfg in Hkey. specialize (Hpw Hkey).
  assert (Hp : _password c = cfg_password options).
  { rewrite Hpass in Hpw |- *. destruct (checkString (cfg_password options) 1); [done|].
    by apply text_defined in Hpw. }
  induction n as [|n IH]; simpl; [done|].
  unfold getConnectionOptions, getConnectionOptions_start.
  rewrite Hkey. simpl. by rewrite IH, Hp.
Qed.

Lemma getConnectionOptions_accounting this reads this' reads' p :
  truthy (_privateKey this) = true →
  getConnectionOptions disk this reads = (this', reads', p) →
  _privateKey this' = _privateKey this ∧
  (reads' = reads ∨ reads' = reads ++ [_privateKey this]) ∧
  length reads' + (if truthy (_privateKeyData this) then 1 else 0) =
    length reads + (if is_rejected p then 1 else 0) +
    (if truthy (_privateKeyData this') then 1 else 0) ∧
  (truthy (_privateKeyData this') =
     truthy (_privateKeyData this) || is_resolved p).
Proof.
  intros Hk. unfold getConnectionOptions, getConnectionOptions_start.
  rewrite Hk. simpl.
  destruct (truthy (_privateKeyData this)) eqn:Hd.
  - intros [= <- <- <-]. rewrite Hd. simpl. repeat split; eauto; lia.
  - destruct (disk (length reads) (_privateKey this)); simpl;
      intros [= <- <- <-]; simpl; rewrite length_app; simpl;
      repeat split; eauto; lia.
Qed.

(** X4: with a private key configured, storage is only ever asked for the
    configured path; and after any number of resolutions the number of
    reads is the number of rejected resolutions plus one if the key is
    cached, the key being cached exactly when some resolution succeeded.
    So every failure costs one read, and all the successes together cost
    one. *)
Theorem reads_are_failures_plus_one_load
    (options : ClientConfig) (c this : t) (n : nat)
    (reads : list Value) (ps : list (Promise ConnectionOptions)) :
  new options = inr c →
  checkString (cfg_privateKey options) 1 = true →
  getConnectionOptions_times disk n c [] = (this, reads, ps) →
  reads = replicate (length reads) (cfg_privateKey options) ∧
  length reads =
    rejections ps + (if truthy (_privateKeyData this) then 1 else 0) ∧
  (truthy (_privateKeyData this) = true ↔ ∃ opts, Resolved opts ∈ ps).
Proof.
  intros Hnew Hcfg Htimes.
  pose proof (new_fields _ _ Hnew) as (Hempty & _ & _ & _ & Hkey & _).
  rewrite Hcfg in Hkey. apply checkString_text in Hcfg.
  pose proof (truthy_text _ Hcfg) as Htruthy. rewrite <- Hkey in Htruthy |- *.
  assert (Hgen : ∀ n this0 reads0 this reads ps,
            truthy (_privateKey this0) = true →
            getConnectionOptions_times disk n this0 reads0 = (this, reads, ps) →
            _privateKey this = _privateKey this0 ∧
            (∃ more, reads = reads0 ++ replicate more (_privateKey this0)) ∧
            length reads + (if truthy (_privateKeyData this0) then 1 else 0) =
              length reads0 + rejections ps +
              (if truthy (_privateKeyData this) then 1 else 0) ∧
            (truthy (_privateKeyData this) = true ↔
             truthy (_privateKeyData this0) = true ∨ ∃ opts, Resolved opts ∈ ps)).
  { clear. intros n. induction n as [|n IH]; intros this0 reads0 this reads ps Hk; simpl.
    - intros [= <- <- <-]. split; [done|]. split; [exists 0; by rewrite app_nil_r|].
      split; [unfold rejections; simpl; lia|].
      split; [eauto|]. intros [?|(? & Hin)]; [done|]. by apply elem_of_nil in Hin.
    - destruct (getConnectionOptions disk this0 reads0) as [[this1 reads1] p] eqn:H1.
      destruct (getConnectionOptions_times disk n this1 reads1)
        as [[this2 reads2] ps'] eqn:H2.
      intros [= <- <- <-].
      destruct (getConnectionOptions_accounting _ _ _ _ _ Hk H1)
        as (Hk1 & Hreads1 & Hcount1 & Hfill1).
      rewrite <- Hk1 in Hk.
      destruct (IH _ _ _ _ _ Hk H2) as (Hk2 & (more & Hreads2) & Hcount2 & Hfill2).
      split; [congruence|]. split.
      { destruct Hreads1 as [->| ->]; [by exists more; rewrite Hreads2, Hk1|].
        exists (S more). rewrite Hreads2, Hk1, <- app_assoc. done. }
      split.
      { unfold rejections in *. rewrite filter_cons.
        destruct (is_rejected p); simpl in *; lia. }
      rewrite Hfill2, Hfill1. split.
      + intros [Hor|(opts & Hin)].
        * apply orb_true_iff in Hor as [?|Hres]; [by left|right].
          destruct p; try done. eexists. by left.
        * right. exists opts. by right.
      + intros [->|(opts & Hin)]; [by left|].
        apply elem_of_cons in Hin as [<-|Hin]; [left; apply orb_true_r|eauto]. }
  destruct (Hgen _ _ _ _ _ _ Htruthy Htimes) as (_ & (more & Hreads) & Hcount & Hfill).
  rewrite Hempty in Hcount, Hfill. simpl in *.
  split.
  - rewrite Hreads, length_replicate. done.
  - split; [lia|]. rewrite Hfill. split; [intros [?|?]; [done|eauto]|eauto].
Qed.
End Sequential.

Lemma resolved_options_carry_the_address_witness :
  new password_config = inr password_client ∧
  getConnectionOptions_times bad_disk 0 password_client []
    = (password_client, [], []) ∧
  getConnectionOptions bad_disk password_client []
    = (password_client, [], Resolved password_options) ∧
  host password_options = VStr "build.example.org" ∧
  port password_options = VNum 22.
Proof.
  assert (Hnew : new password_config = inr password_client) by reflexivity.
  assert (Htimes : getConnectionOptions_times bad_disk 0 password_client []
                   = (password_client, [], [])) by reflexivity.
  assert (Hget : getConnectionOptions bad_disk password_client []
                 = (password_client, [], Resolved password_options))
    by reflexivity.
  split; [exact Hnew|]. split; [exact Htimes|]. split; [exact Hget|].
  destruct (resolved_options_carry_the_address bad_disk password_config
              password_client password_client password_client 0 [] [] []
              password_options Hnew Htimes Hget) as (Hh & _ & _ & _ & Hp & _).
  exact (conj Hh Hp).
Defined.

Lemma password_client_never_reads_witness :
  new password_config = inr password_client ∧
  checkString (cfg_privateKey password_config) 1 = false ∧
  getConnectionOptions_times bad_disk 3 password_client [] =
    (password_client, [],
     replicate 3 (Resolved (with_password (connectionOptions password_client)
                              (cfg_password password_config)))).
Proof.
  assert (Hnew : new password_config = inr password_client) by reflexivity.
  assert (Hcfg : checkString (cfg_privateKey password_config) 1 = false)
    by reflexivity.
  split; [exact Hnew|]. split; [exact Hcfg|].
  exact (password_client_never_reads bad_disk password_config password_client 3
           Hnew Hcfg).
Defined.

Lemma reads_are_failures_plus_one_load_witness :
  new key_config = inr key_client ∧
  checkString (cfg_privateKey key_config) 1 = true ∧
  getConnectionOptions_times flaky_disk 4 key_client []
    = (key_client_loaded, [key_path; key_path; key_path],
       [Rejected (Error "EAGAIN"); Rejected (Error "EAGAIN");
        Resolved key_options; Resolved key_options]) ∧
  length [key_path; key_path; key_path] =
    rejections [Rejected (Error "EAGAIN"); Rejected (Error "EAGAIN");
                Resolved key_options; Resolved key_options] +
    (if truthy (_privateKeyData key_client_loaded) then 1 else 0).
Proof.
  assert (Hnew : new key_config = inr key_client) by reflexivity.
  assert (Hcfg : checkString (cfg_privateKey key_config) 1 = true) by reflexivity.
  assert (Htimes : getConnectionOptions_times flaky_disk 4 key_client []
                   = (key_client_loaded, [key_path; key_path; key_path],
                      [Rejected (Error "EAGAIN"); Rejected (Error "EAGAIN");
                       Resolved key_options; Resolved key_options]))
    by reflexivity.
  split; [exact Hnew|]. split; [exact Hcfg|]. split; [exact Htimes|].
  exact (proj1 (proj2 (reads_are_failures_plus_one_load flaky_disk key_config
                         key_client key_client_loaded 4 _ _ Hnew Hcfg Htimes))).
Defined.
End RemoteClientMore.

(** * Resolutions that overlap *)
Module OverlapFacts.
Import ArgValidator RemoteClient RemoteClientFacts Overlap.

Lemma call_reads w :
  truthy (_privateKey (client w)) = true →
  truthy (_privateKeyData (client w)) = false →
  op_step w Call =
    Some {| client := client w; reads := reads w ++ [_privateKey (client w)];
            in_flight := S (in_flight w); settled := settled w |}.
Proof.
  intros Hk Hd. simpl. unfold getConnectionOptions_start. by rewrite Hk, Hd.
Qed.

Lemma calls_read w k :
  truthy (_privateKey (client w)) = true →
  truthy (_privateKeyData (client w)) = false →
  run_ops w (replicate k Call) =
    Some {| client := client w;
            reads := reads w ++ replicate k (_privateKey (client w));
            in_flight := k + in_flight w; settled := settled w |}.
Proof.
  revert w. induction k as [|k IH]; intros w Hk Hd.
  - simpl. rewrite app_nil_r. by destruct w.
  - cbn [replicate run_ops]. rewrite (call_reads _ Hk Hd), IH by done.
    simpl. rewrite <- app_assoc. do 2 f_equal. lia.
Qed.

(** X5: the cache is consulted when [getConnectionOptions] is called, not
    when the read completes: [k] calls made on a fresh client with a private
    key before any read has completed issue [k] reads of the key, and settle
    nothing yet. *)
Theorem overlapping_calls_each_read (options : ClientConfig) (c : t) (k : nat) :
  new options = inr c →
  checkString (cfg_privateKey options) 1 = true →
  run_ops (fresh c) (replicate k Call) =
    Some {| client := c; reads := replicate k (cfg_privateKey options);
            in_flight := k; settled := [] |}.
Proof.
  intros Hnew Hcfg.
  pose proof (new_fields _ _ Hnew) as (Hempty & _ & _ & _ & Hkey & _).
  rewrite Hcfg in Hkey. apply checkString_text, truthy_text in Hcfg.
  rewrite calls_read; simpl; rewrite ?Hkey, ?Hempty; try done.
  by rewrite Nat.add_0_r.
Qed.

(** X6: a read that fails empties the cache, also when an overlapping read
    had filled it: its promise is rejected with the error of the storage and
    the next call reads the key again. *)
Theorem failed_read_empties_the_cache (w : World) (err : JsError) :
  0 < in_flight w →
  truthy (_privateKey (client w)) = true →
  ∃ w1 w2,
    op_step w (ReadDone (ReadError err)) = Some w1 ∧
    _privateKeyData (client w1) = VUndefined ∧
    settled w1 = settled w ++ [Rejected err] ∧
    op_step w1 Call = Some w2 ∧
    reads w2 = reads w ++ [_privateKey (client w)] ∧
    in_flight w2 = in_flight w.
Proof.
  intros Hfl Hk. destruct w as [c rs [|k] st]; simpl in *; [lia|].
  eexists _, _. split; [done|]. simpl. split; [done|]. split; [done|].
  unfold getConnectionOptions_start. simpl. rewrite Hk. simpl. done.
Qed.

Lemma overlapping_calls_each_read_witness :
  new key_config = inr key_client ∧
  checkString (cfg_privateKey key_config) 1 = true ∧
  run_ops (fresh key_client) (replicate 2 Call) =
    Some {| client := key_client; reads := replicate 2 (cfg_privateKey key_config);
            in_flight := 2; settled := [] |}.
Proof.
  assert (Hnew : new key_config = inr key_client) by reflexivity.
  assert (Hcfg : checkString (cfg_privateKey key_config) 1 = true) by reflexivity.
  split; [exact Hnew|]. split; [exact Hcfg|].
  exact (overlapping_calls_each_read key_config key_client 2 Hnew Hcfg).
Defined.

Lemma failed_read_empties_the_cache_witness :
  run_ops (fresh key_client) [Call; Call; ReadDone (ReadData key_bytes)]
    = Some one_read_left ∧
  _privateKeyData (client one_read_left) = VBuf key_bytes ∧
  0 < in_flight one_read_left ∧
  truthy (_privateKey (client one_read_left)) = true ∧
  ∃ w1 w2,
    op_step one_read_left (ReadDone (ReadError (Error "EIO"))) = Some w1 ∧
    _privateKeyData (client w1) = VUndefined ∧
    op_step w1 Call = Some w2 ∧
    reads w2 = reads one_read_left ++ [_privateKey (client one_read_left)].
Proof.
  assert (Hfl : 0 < in_flight one_read_left) by (vm_compute; apply Nat.lt_0_1).
  assert (Hk : truthy (_privateKey (client one_read_left)) = true) by reflexivity.
  split; [reflexivity|]. split; [reflexivity|]. split; [exact Hfl|].
  split; [exact Hk|].
  destruct (failed_read_empties_the_cache one_read_left (Error "EIO") Hfl Hk)
    as (w1 & w2 & H1 & Hd & _ & H2 & Hr & _).
  exists w1, w2. exact (conj H1 (conj Hd (conj H2 Hr))).
Defined.
End OverlapFacts.

(** * Further properties of SshClient *)
Module SshClientMore.
Import ArgValidator SshClient SshClientFacts Shapes.

Section Transport.
Variable exec_returns : nat → bool.
Local Abbreviation step := (SshClient.step exec_returns).
Local Abbreviation run_events := (SshClient.run_events exec_returns).
Local Abbreviation Inv := (SshClient.Inv exec_returns).

Ltac fields :=
  cbn [this commands phase channel cmd_results _finishMethod execResult
       returned readFile_calls connect_calls exec_calls end_calls
       set_this set_phase set_channel set_results set_finishMethod
       set_execResult set_returned call_readFile call_connect call_exec
       call_end execute index callNext exec_command].

(** *** What the handlers leave alone *)

Lemma resolve_command_frame i s :
  channel (resolve_command i s) = channel s ∧
  cmd_results (resolve_command i s) = cmd_results s ∧
  exec_calls (resolve_command i s) = exec_calls s ∧
  _finishMethod (resolve_command i s) = _finishMethod s ∧
  this (resolve_command i s) = this s ∧
  connect_calls (resolve_command i s) = connect_calls s ∧
  readFile_calls (resolve_command i s) = readFile_calls s.
Proof.
  unfold resolve_command. destruct (phase s); try done. by destruct (Nat.eqb i i0).
Qed.

Lemma reject_command_frame i s :
  channel (reject_command i s) = channel s ∧
  cmd_results (reject_command i s) = cmd_results s ∧
  exec_calls (reject_command i s) = exec_calls s ∧
  _finishMethod (reject_command i s) = _finishMethod s ∧
  this (reject_command i s) = this s ∧
  connect_calls (reject_command i s) = connect_calls s ∧
  readFile_calls (reject_command i s) = readFile_calls s.
Proof.
  unfold reject_command. destruct (phase s); try done. by destruct (Nat.eqb i i0).
Qed.

Lemma is_zero_false code : is_zero code = false → code ≠ VNum 0.
Proof. by intros Hz ->. Qed.

(** *** Finished and running results *)

Lemma step_record s ev s' :
  Inv s → record_inv s → step s ev = Some s' → record_inv s'.
Proof.
  intros HI HR Hstep. unfold record_inv in *.
  destruct ev; cbn [SshClient.step] in Hstep.
  - destruct (phase s); simplify_eq. unfold on_readFile.
    by destruct r.
  - by destruct (phase s); simplify_eq.
  - case_match; simplify_eq. unfold on_error. fields. by destruct (phase s).
  - case_match; simplify_eq. unfold on_continue.
    destruct (_finishMethod s); [|done]. fields.
    destruct (resolve_command_frame n s) as (-> & -> & _). done.
  - destruct (channel s) as [|e|] eqn:Hch; simplify_eq.
    unfold on_exec_callback. destruct err as [err|]; fields.
    + destruct (reject_command_frame (index e)
                  (set_channel Idle
                     (set_results
                        (alter (fail_with err) (length (cmd_results s))
                           (cmd_results s ++ [new_result (exec_command e)]))
                        (set_results (cmd_results s ++ [new_result (exec_command e)]) s))))
        as (-> & -> & _).
      fields. rewrite alter_last. apply Forall_app. split; [done|].
      apply Forall_singleton. right. by repeat split.
    + exists (cmd_results s), (new_result (exec_command e)). by repeat split.
  - destruct (channel s) as [| |e r] eqn:Hch; simplify_eq.
    destruct (inv_open exec_returns _ _ _ HI Hch) as (_ & -> & Hlen & _).
    destruct HR as (ok & cur & Hrs & Hok & Hcur).
    unfold on_data. fields. rewrite Hch.
    assert (length ok = index e) as <-.
    { rewrite Hrs, length_app in Hlen. simpl in Hlen. lia. }
    rewrite Hrs, alter_last. eexists _, _. split; [done|]. split; [done|].
    by destruct Hcur as (? & ? & ?).
  - destruct (channel s) as [| |e r] eqn:Hch; simplify_eq.
    destruct (inv_open exec_returns _ _ _ HI Hch) as (_ & -> & Hlen & _).
    destruct HR as (ok & cur & Hrs & Hok & Hcur).
    unfold on_stderr_data. fields. rewrite Hch.
    assert (length ok = index e) as <-.
    { rewrite Hrs, length_app in Hlen. simpl in Hlen. lia. }
    rewrite Hrs, alter_last. eexists _, _. split; [done|]. split; [done|].
    by destruct Hcur as (? & ? & ?).
  - destruct (channel s) as [| |e r] eqn:Hch; simplify_eq.
    destruct (inv_open exec_returns _ _ _ HI Hch) as (_ & -> & Hlen & _).
    destruct HR as (ok & cur & Hrs & Hok & (Hs & Hx & He)).
    assert (length ok = index e) as Hlok.
    { rewrite Hrs, length_app in Hlen. simpl in Hlen. lia. }
    unfold on_close. fields. rewrite Hrs, <- Hlok, alter_last.
    destruct (is_zero code) eqn:Hz; cbn [negb].
    + assert (Forall finished (ok ++ [set_exitCode code cur])).
      { apply Forall_app. split; [done|]. apply Forall_singleton. left.
        apply is_zero_eq in Hz as ->. by repeat split. }
      destruct (callNext e).
      * by destruct (resolve_command_frame (length ok)
                       (set_channel Idle
                          (set_results (ok ++ [set_exitCode code cur]) s)))
          as (-> & -> & _).
      * done.
    + fields. rewrite alter_last.
      destruct (reject_command_frame (length ok)
                  (set_results
                     (ok ++ [fail_with nonZeroExit (set_exitCode code cur)])
                     (set_channel Idle
                        (set_results (ok ++ [set_exitCode code cur]) s))))
        as (-> & -> & _).
      fields. apply Forall_app. split; [done|]. apply Forall_singleton. right.
      split; [done|]. split; [by apply is_zero_false|done].
  - simplify_eq. unfold on_tick.
    assert (Hidle : ∀ i, phase s = Next i → Forall finished (cmd_results s)).
    { intros i Hph. destruct HI as [_ _ Hp]. unfold phase_inv in Hp.
      rewrite Hph in Hp. destruct Hp as (_ & _ & _ & Hch & _). by rewrite Hch in HR. }
    destruct (phase s) eqn:Hph; try done.
    destruct (commands s !! i); fields; eauto.
Qed.

Lemma run_events_record s evs s' :
  Inv s → record_inv s → run_events s evs = Some s' → record_inv s'.
Proof.
  revert s. induction evs as [|ev evs IH]; intros s HI HR; simpl.
  - by intros [= <-].
  - destruct (step s ev) as [s1|] eqn:Hstep; [|done].
    apply IH; [by eapply step_inv|by eapply step_record].
Qed.

Lemma run_record self v s0 : run self v = inr s0 → record_inv s0.
Proof.
  intros Hrun. destruct (run_initial exec_returns _ _ _ Hrun) as ([_ _ Hp] & _ & _ & _ & Hph & _).
  unfold record_inv, phase_inv, pristine in *.
  destruct Hph as [Hph|Hph]; rewrite Hph in Hp; destruct_and!;
    repeat match goal with H : _ = _ |- _ => rewrite H end; done.
Qed.

Lemma reachable_record self v s0 evs s :
  run self v = inr s0 → run_events s0 evs = Some s → Inv s ∧ record_inv s.
Proof.
  intros Hrun Hevs. split; [by eapply reachable_inv|].
  eapply run_events_record; [by eapply run_inv|by eapply run_record|done].
Qed.

(** A resolved promise means that the closing reactions have run. *)
Lemma resolved_closed s summary :
  Inv s → returned s = Resolved summary →
  phase s = Closed ∧ channel s = Idle ∧
  summary = summary_of (length (commands s)) (cmd_results s) ∧
  length (exec_calls s) = length (cmd_results s) ∧
  ((Forall succeeded (cmd_results s) ∧
    length (cmd_results s) = length (commands s)) ∨
   one_failure (cmd_results s)).
Proof.
  intros [_ _ Hp] Hres. unfold phase_inv, pristine, untallied in Hp.
  destruct (phase s); try by (destruct_and!; rewrite Hres in *).
  destruct Hp as (? & _ & ? & ? & Hsum & _ & Hret).
  rewrite <- Hsum. repeat split; try done. by apply Hret.
Qed.

Lemma finished_iff r :
  finished r →
  (success r = true ↔ exitCode r = VNum 0) ∧ (success r = true ↔ error r = None).
Proof.
  intros [(-> & -> & ->)|(-> & ? & ?)]; [done|]. split; split; done.
Qed.

(** X7: in a summary that [run] resolved with, a result is a success
    exactly when its exit code is the number 0, and exactly when it carries
    no error. *)
Theorem summary_success_iff_exit_zero (self : RemoteClient.t) (v : Value)
    (s0 : State) (evs : list Event) (s : State)
    (summary : SshExecutionResults) (r : ExecutionResult) :
  run self v = inr s0 → run_events s0 evs = Some s →
  returned s = Resolved summary → r ∈ results summary →
  (success r = true ↔ exitCode r = VNum 0) ∧
  (success r = true ↔ error r = None).
Proof.
  intros Hrun Hevs Hres Hin.
  destruct (reachable_record _ _ _ _ _ Hrun Hevs) as [HI HR].
  destruct (resolved_closed _ _ HI Hres) as (_ & Hch & -> & _).
  unfold record_inv in HR. rewrite Hch in HR. simpl in Hin.
  rewrite Forall_forall in HR. by apply finished_iff, HR.
Qed.

Lemma count_all_succeeded (rs : list ExecutionResult) :
  Forall succeeded rs →
  filter (λ r, success r = true) rs = rs ∧ filter (λ r, success r = false) rs = [].
Proof.
  induction 1 as [|r rs Hr _ [IH1 IH2]]; [done|].
  unfold succeeded in Hr. rewrite !filter_cons, Hr. simpl.
  by rewrite IH1, IH2.
Qed.

(** X8: a summary counts at most one failure.  With none, every requested
    command has a result and all of them are successes; with one, the
    failure is the last result and the successes are all the others. *)
Theorem summary_counts_at_most_one_failure (self : RemoteClient.t) (v : Value)
    (s0 : State) (evs : list Event) (s : State) (summary : SshExecutionResults) :
  run self v = inr s0 → run_events s0 evs = Some s →
  returned s = Resolved summary →
  failureCount summary ≤ 1 ∧
  (failureCount summary = 0 →
     length (results summary) = commandCount summary ∧
     successCount summary = commandCount summary) ∧
  (failureCount summary = 1 →
     ∃ ok f, results summary = ok ++ [f] ∧ success f = false ∧
             Forall succeeded ok ∧ successCount summary = length ok).
Proof.
  intros Hrun Hevs Hres.
  pose proof (reachable_inv exec_returns _ _ _ _ _ Hrun Hevs) as HI.
  destruct (resolved_closed _ _ HI Hres) as (_ & _ & -> & _ & Hshape). simpl.
  destruct Hshape as [[Hall Hlen]|(ok & f & Hrs & Hok & Hf)].
  - destruct (count_all_succeeded _ Hall) as [-> ->]. simpl.
    split; [lia|]. split; [done|]. done.
  - destruct (count_all_succeeded _ Hok) as [H1 H2]. unfold failed in Hf.
    rewrite Hrs, !filter_app, H1, H2, !filter_cons, Hf. simpl.
    rewrite app_nil_r. split; [lia|]. split; [done|].
    intros _. exists ok, f. done.
Qed.

(** X9: commands are in flight one at a time: at most one submitted command
    has no result yet, and when a command has been submitted every command
    before it has a result that is a success with exit code 0. *)
Theorem one_command_at_a_time (self : RemoteClient.t) (v : Value)
    (s0 : State) (evs : list Event) (s : State) :
  run self v = inr s0 → run_events s0 evs = Some s →
  length (exec_calls s) ≤ S (length (cmd_results s)) ∧
  length (cmd_results s) ≤ length (exec_calls s) ∧
  ∀ i, S i < length (exec_calls s) →
    ∃ r, cmd_results s !! i = Some r ∧ success r = true ∧ exitCode r = VNum 0.
Proof.
  intros Hrun Hevs.
  destruct (reachable_record _ _ _ _ _ Hrun Hevs) as [HI HR].
  assert (Hshape : length (exec_calls s) ≤ S (length (cmd_results s)) ∧
            length (cmd_results s) ≤ length (exec_calls s) ∧
            ∀ i, S i < length (exec_calls s) →
              ∃ r, cmd_results s !! i = Some r ∧ success r = true ∧
                   S i < length (cmd_results s) +
                           match channel s with Open _ _ => 0 | _ => 1 end).
  { destruct HI as [_ _ Hp]. unfold phase_inv, pristine in Hp.
    assert (Hok : ∀ rs i, Forall succeeded rs → i < length rs →
              ∃ r, rs !! i = Some r ∧ success r = true).
    { intros rs i Hall Hi. destruct (lookup_lt_is_Some_2 rs i Hi) as [r Hr].
      rewrite Forall_lookup in Hall. exists r. split; [done|]. by apply (Hall i). }
    assert (Hone : ∀ i, one_failure (cmd_results s) → S i < length (cmd_results s) →
              ∃ r, cmd_results s !! i = Some r ∧ success r = true).
    { intros i (ok & f & Hrs & Hall & _) Hi. rewrite Hrs, length_app in *.
      simpl in Hi. destruct (Hok ok i Hall) as (r & Hr & ?); [lia|].
      exists r. by rewrite lookup_app_l by lia. }
    destruct (phase s).
    1-4: destruct_and!;
      repeat match goal with H : _ = [] |- _ => rewrite H end;
      simpl; repeat split; try lia; intros; lia.
    - destruct Hp as (Hl & He & Hall & Hch & _). rewrite Hl, He, Hch.
      repeat split; try lia. intros j Hj.
      destruct (Hok _ j Hall) as (x & ? & ?); [lia|]. exists x. repeat split; try done. lia.
    - destruct Hp as (He & Hall & _ & Hch). rewrite He.
      destruct (channel s).
      + destruct Hch as (Hl & _). rewrite Hl. repeat split; try lia. intros j Hj.
        destruct (Hok _ j Hall) as (x & ? & ?); [lia|]. exists x. repeat split; try done. lia.
      + destruct Hch as (_ & _ & _ & Hl & _). rewrite Hl. repeat split; try lia.
        intros j Hj. destruct (Hok _ j Hall) as (x & ? & ?); [lia|].
        exists x. repeat split; try done. lia.
      + destruct Hch as (_ & _ & _ & Hl & _). rewrite Hl. repeat split; try lia.
        intros j Hj. destruct (Hok _ j Hall) as (x & ? & ?); [lia|].
        exists x. repeat split; try done. lia.
    - destruct Hp as (Hch & _ & He & Hf & _). rewrite He, Hch.
      repeat split; try lia. intros j Hj.
      destruct (Hone j Hf Hj) as (x & ? & ?). exists x. repeat split; try done. lia.
    - destruct Hp as (Hch & _ & He & Hf & _). rewrite He, Hch.
      repeat split; try lia. intros j Hj.
      destruct Hf as [[Hall _]|Hf].
      + destruct (Hok _ j Hall) as (x & ? & ?); [lia|]. exists x. repeat split; try done. lia.
      + destruct (Hone j Hf Hj) as (x & ? & ?). exists x. repeat split; try done. lia. }
  destruct Hshape as (H1 & H2 & H3). split; [done|]. split; [done|].
  intros i Hi. destruct (H3 i Hi) as (r & Hr & Hs & Hlt).
  exists r. split; [done|]. split; [done|].
  assert (finished r) as Hfin.
  { unfold record_inv in HR. destruct (channel s).
    - rewrite Forall_lookup in HR. eauto.
    - rewrite Forall_lookup in HR. eauto.
    - destruct HR as (ok & cur & Hrs & Hok & _). rewrite Hrs in Hr, Hlt.
      rewrite length_app in Hlt. simpl in Hlt.
      rewrite lookup_app_l in Hr by lia. rewrite Forall_lookup in Hok. eauto. }
  destruct (finished_iff _ Hfin) as [Hiff _]. by apply Hiff.
Qed.

(** *** Failures before the session is ready *)

Lemma step_connect_failed s ev s' :
  Inv s → phase s = ConnectFailed → step s ev = Some s' →
  phase s' = ConnectFailed.
Proof.
  intros [_ _ Hp] Hph Hstep. unfold phase_inv, pristine in Hp. rewrite Hph in Hp.
  destruct Hp as (_ & _ & Hch & Hf & _).
  destruct ev; cbn [SshClient.step] in Hstep; rewrite ?Hph, ?Hch in Hstep;
    simplify_eq.
  - case_match; simplify_eq. unfold on_error. fields. by rewrite Hph.
  - case_match; simplify_eq. unfold on_continue. by rewrite Hf.
  - unfold on_tick. by rewrite Hph.
Qed.

Lemma run_events_connect_failed s evs s' :
  Inv s → phase s = ConnectFailed → run_events s evs = Some s' →
  phase s' = ConnectFailed.
Proof.
  revert s. induction evs as [|ev evs IH]; intros s HI Hph; simpl.
  - by intros [= <-].
  - destruct (step s ev) as [s1|] eqn:Hstep; [|done].
    apply IH; [by eapply step_inv|by eapply step_connect_failed].
Qed.

(** X10: an ['error'] of the client before ['ready'] ends the session once
    and rejects the promise with that error; after it no command is ever
    submitted, no result recorded, and the promise stays rejected. *)
Theorem connection_error_before_ready (self : RemoteClient.t) (v : Value)
    (s0 : State) (evs : list Event) (s : State) (err : JsError) :
  run self v = inr s0 → run_events s0 evs = Some s → phase s = Connecting →
  ∃ s1, step s (ClientError err) = Some s1 ∧
        returned s1 = Rejected err ∧ end_calls s1 = 1 ∧
        ∀ evs' s', run_events s1 evs' = Some s' →
          exec_calls s' = [] ∧ cmd_results s' = [] ∧
          returned s' = Rejected err ∧
          end_calls s' = 1 + client_errors evs'.
Proof.
  intros Hrun Hevs Hph.
  pose proof (reachable_inv exec_returns _ _ _ _ _ Hrun Hevs) as HI.
  assert (Hstep : step s (ClientError err) = Some (on_error err s)).
  { cbn [SshClient.step]. unfold has_client. by rewrite Hph. }
  pose proof (step_inv exec_returns _ _ _ HI Hstep) as HI1.
  destruct HI as [_ _ Hp]. unfold phase_inv in Hp. rewrite Hph in Hp.
  destruct Hp as (_ & Hpend & Hend & _).
  assert (Hph1 : phase (on_error err s) = ConnectFailed).
  { unfold on_error. fields. by rewrite Hph. }
  assert (Hret1 : returned (on_error err s) = Rejected err).
  { unfold on_error. fields. rewrite Hph. fields. by rewrite Hpend. }
  assert (Hend1 : end_calls (on_error err s) = 1).
  { unfold on_error. fields. rewrite Hph. fields. by rewrite Hend. }
  exists (on_error err s). split; [done|]. split; [done|]. split; [done|].
  intros evs' s' Hevs'.
  pose proof (run_events_inv exec_returns _ _ _ HI1 Hevs') as [_ _ Hp'].
  pose proof (run_events_connect_failed _ _ _ HI1 Hph1 Hevs') as Hph'.
  unfold phase_inv, pristine in Hp'. rewrite Hph' in Hp'.
  destruct Hp' as (Hrs & Hex & _).
  split; [done|]. split; [done|].
  split; [by eapply rejected_forever|].
  pose proof (run_events_end_calls exec_returns _ _ _ Hevs') as Hcount.
  unfold closed_count, is_closed in Hcount. rewrite Hph1, Hph', Hend1 in Hcount. lia.
Qed.

Lemma step_key_failed s ev s' :
  Inv s → phase s = KeyFailed → step s ev = Some s' → s' = s.
Proof.
  intros [_ _ Hp] Hph Hstep. unfold phase_inv, pristine in Hp. rewrite Hph in Hp.
  destruct Hp as ((_ & _ & Hch & _) & _).
  destruct ev; cbn [SshClient.step] in Hstep; unfold has_client in Hstep;
    rewrite ?Hph, ?Hch in Hstep; simplify_eq.
  unfold on_tick. by rewrite Hph.
Qed.

Lemma run_events_key_failed s evs s' :
  Inv s → phase s = KeyFailed → run_events s evs = Some s' → s' = s.
Proof.
  intros HI Hph. induction evs as [|ev evs IH]; simpl.
  - by intros [= <-].
  - destruct (step s ev) as [s1|] eqn:Hstep; [|done].
    rewrite (step_key_failed _ _ _ HI Hph Hstep). apply IH.
Qed.

Lemma run_loading self v s0 :
  run self v = inr s0 → phase s0 = LoadingKey →
  this s0 = self ∧ truthy (RemoteClient._privateKey self) = true ∧
  connect_calls s0 = [] ∧ readFile_calls s0 = [RemoteClient._privateKey self].
Proof.
  unfold run. destruct (negb (checkArray _)); [done|].
  unfold RemoteClient.getConnectionOptions_start.
  destruct (truthy (RemoteClient._privateKey self)); simpl; [|by intros [= <-]].
  destruct (truthy (RemoteClient._privateKeyData self)); simpl;
    intros [= <-]; [done|]. done.
Qed.

(** X11: when the private key cannot be read, [run] rejects with the error
    of the storage, and that is the end of the call: no ssh2 client is
    constructed, nothing is connected, ended or executed, and nothing
    changes any more. *)
Theorem key_read_failure_opens_no_session (self : RemoteClient.t) (v : Value)
    (s0 : State) (err : JsError) :
  run self v = inr s0 → phase s0 = LoadingKey →
  readFile_calls s0 = [RemoteClient._privateKey self] ∧
  ∃ s1, step s0 (ReadFileDone (RemoteClient.ReadError err)) = Some s1 ∧
        returned s1 = Rejected err ∧ connect_calls s1 = [] ∧
        end_calls s1 = 0 ∧ exec_calls s1 = [] ∧
        ∀ evs' s', run_events s1 evs' = Some s' → s' = s1.
Proof.
  intros Hrun Hph.
  destruct (run_loading _ _ _ Hrun Hph) as (_ & _ & Hconn & Hreads).
  split; [done|].
  pose proof (run_inv exec_returns _ _ _ Hrun) as HI.
  assert (Hstep : step s0 (ReadFileDone (RemoteClient.ReadError err))
                  = Some (on_readFile (RemoteClient.ReadError err) s0)).
  { cbn [SshClient.step]. by rewrite Hph. }
  pose proof (step_inv exec_returns _ _ _ HI Hstep) as HI1.
  destruct HI as [_ _ Hp]. unfold phase_inv, pristine in Hp. rewrite Hph in Hp.
  destruct Hp as ((_ & Hex & _) & Hpend & Hend & _).
  assert (Hs1 : phase (on_readFile (RemoteClient.ReadError err) s0) = KeyFailed ∧
                returned (on_readFile (RemoteClient.ReadError err) s0) = Rejected err ∧
                connect_calls (on_readFile (RemoteClient.ReadError err) s0) = [] ∧
                end_calls (on_readFile (RemoteClient.ReadError err) s0) = 0 ∧
                exec_calls (on_readFile (RemoteClient.ReadError err) s0) = []).
  { unfold on_readFile. cbn [RemoteClient.readFile_callback]. fields.
    by rewrite Hpend. }
  destruct Hs1 as (Hph1 & Hret1 & Hconn1 & Hend1 & Hex1).
  exists (on_readFile (RemoteClient.ReadError err) s0).
  split; [done|]. split; [done|]. split; [done|]. split; [done|]. split; [done|].
  intros evs' s' Hevs'. by eapply run_events_key_failed.
Qed.

(** X12: [run] throws exactly when its argument is neither a non-empty
    string nor an array.  What an array holds is not inspected: any array
    becomes the command list as it is; an empty string is refused. *)
Theorem run_accepts_iff (self : RemoteClient.t) (v : Value) :
  ((∃ err, run self v = inl err) ↔
   checkString v 1 = false ∧ checkArray v = false) ∧
  (∀ items, ∃ s0, run self (VArr items) = inr s0 ∧ commands s0 = items ∧
                  commandCount (execResult s0) = length items) ∧
  run self (VStr "") = inl (ArgError "Invalid command(s) (arg #1)").
Proof.
  split; [split|split].
  - intros [err Hthrow]. by apply run_throws in Hthrow as (? & ? & _).
  - intros [Hs Ha]. unfold run. rewrite Hs, Ha. simpl. eauto.
  - intros items. destruct (run_accepts self (VArr items)) as [s0 Hs0]; [by right|].
    exists s0. split; [done|].
    destruct (run_initial exec_returns _ _ _ Hs0) as ([_ _ Hp] & _ & _ & _ & Hph & Hcmds).
    simpl in Hcmds. split; [done|].
    unfold phase_inv, pristine, untallied in Hp.
    destruct Hph as [Hph|Hph]; rewrite Hph in Hp; destruct_and!;
      match goal with H : execResult s0 = _ |- _ => rewrite H, Hcmds end; done.
  - done.
Qed.

(** X13: once the promise is resolved nothing that happens later changes
    what was delivered: the promise keeps the same summary, whose results
    stay the recorded ones, and no command is submitted any more. *)
Theorem resolved_summary_is_final (self : RemoteClient.t) (v : Value)
    (s0 : State) (evs : list Event) (s : State) (summary : SshExecutionResults)
    (evs' : list Event) (s' : State) :
  run self v = inr s0 → run_events s0 evs = Some s →
  returned s = Resolved summary → run_events s evs' = Some s' →
  returned s' = Resolved summary ∧ cmd_results s' = results summary ∧
  exec_calls s' = exec_calls s ∧ phase s' = Closed.
Proof.
  intros Hrun Hevs Hres Hevs'.
  pose proof (reachable_inv exec_returns _ _ _ _ _ Hrun Hevs) as HI.
  destruct (resolved_closed _ _ HI Hres) as (Hph & _ & Hsum & _).
  destruct (run_events_halted exec_returns _ _ _ HI (or_intror Hph) Hevs')
    as (Hex & Hrs & _).
  assert (Hres' : returned s' = Resolved summary).
  { destruct (run_events_returned exec_returns _ _ _ Hevs') as [->|[Hp _]];
      [done|congruence]. }
  split; [done|]. split; [by rewrite Hrs, Hsum|]. split; [done|].
  pose proof (run_events_inv exec_returns _ _ _ HI Hevs') as HI'.
  by destruct (resolved_closed _ _ HI' Hres') as (? & _).
Qed.

(** *** The calls on [fs] and on the ssh2 constructor *)

Lemma connect_frame s s' :
  this s' = this s → connect_calls s' = connect_calls s →
  readFile_calls s' = readFile_calls s →
  phase s' = phase s ∨ (has_client s = true ∧ has_client s' = true) →
  connect_inv s → connect_inv s'.
Proof.
  unfold connect_inv, has_client. intros -> -> -> [->|[H1 H2]]; [done|].
  by destruct (phase s), (phase s').
Qed.

Lemma resolve_command_phase i s :
  phase (resolve_command i s) = phase s ∨
  (has_client s = true ∧ has_client (resolve_command i s) = true).
Proof.
  unfold resolve_command, has_client. destruct (phase s) eqn:Hph; rewrite ?Hph; eauto.
  destruct (Nat.eqb i i0); simpl; rewrite ?Hph; eauto.
Qed.

Lemma reject_command_phase i s :
  phase (reject_command i s) = phase s ∨
  (has_client s = true ∧ has_client (reject_command i s) = true).
Proof.
  unfold reject_command, has_client. destruct (phase s) eqn:Hph; rewrite ?Hph; eauto.
  destruct (Nat.eqb i i0); simpl; rewrite ?Hph; eauto.
Qed.

Lemma step_connect s ev s' :
  connect_inv s → step s ev = Some s' → connect_inv s'.
Proof.
  intros HC Hstep. destruct ev; cbn [SshClient.step] in Hstep.
  - destruct (phase s) eqn:Hph; simplify_eq.
    unfold connect_inv in *. rewrite Hph in HC. destruct HC as (Hconn & Hreads & Hk).
    unfold on_readFile. destruct r as [err|data];
      cbn [RemoteClient.readFile_callback]; fields.
    + done.
    + rewrite Hconn. eexists. split; [done|].
      unfold RemoteClient.getConnectionOptions_start. simpl. rewrite Hk. simpl.
      by destruct (this s).
  - destruct (phase s) eqn:Hph; simplify_eq.
    unfold connect_inv in *. by rewrite Hph in HC.
  - destruct (has_client s) eqn:Hcl; simplify_eq.
    apply (connect_frame s); try done.
    + unfold on_error. fields. by destruct (phase s).
    + unfold on_error. fields. by destruct (phase s).
    + unfold on_error. fields. by destruct (phase s).
    + unfold on_error, has_client in *. fields.
      destruct (phase s) eqn:Hph; fields; rewrite ?Hph; eauto.
  - destruct (has_client s) eqn:Hcl; simplify_eq. unfold on_continue.
    destruct (_finishMethod s); [|done].
    destruct (resolve_command_frame n s) as (_ & _ & _ & _ & ? & ? & ?).
    apply (connect_frame s); try done. apply resolve_command_phase.
  - destruct (channel s) as [|e|]; simplify_eq. unfold on_exec_callback.
    destruct err as [err|]; [|by apply (connect_frame s); eauto].
    match goal with |- connect_inv (reject_command ?i ?t) =>
      destruct (reject_command_frame i t) as (_ & _ & _ & _ & ? & ? & ?);
      pose proof (reject_command_phase i t) as Hph;
      apply (connect_frame t); [done..|];
      by apply (connect_frame s); eauto
    end.
  - destruct (channel s); simplify_eq. by apply (connect_frame s); eauto.
  - destruct (channel s); simplify_eq. by apply (connect_frame s); eauto.
  - destruct (channel s) as [| |e r]; simplify_eq. unfold on_close.
    destruct (negb (is_zero code)); [|destruct (callNext e)].
    + match goal with |- connect_inv (reject_command ?i ?t) =>
        destruct (reject_command_frame i t) as (_ & _ & _ & _ & ? & ? & ?);
        pose proof (reject_command_phase i t) as Hph;
        apply (connect_frame t); [done..|];
        by apply (connect_frame s); eauto
      end.
    + match goal with |- connect_inv (resolve_command ?i ?t) =>
        destruct (resolve_command_frame i t) as (_ & _ & _ & _ & ? & ? & ?);
        pose proof (resolve_command_phase i t) as Hph;
        apply (connect_frame t); [done..|];
        by apply (connect_frame s); eauto
      end.
    + by apply (connect_frame s); eauto.
  - simplify_eq. unfold on_tick. destruct (phase s) eqn:Hph; try done.
    + destruct (commands s !! i).
      * apply (connect_frame s); try done. right. unfold has_client. fields.
        by rewrite Hph.
      * apply (connect_frame s); try done. right. unfold has_client, finish. fields.
        by rewrite Hph.
    + apply (connect_frame s); try done. right. unfold has_client, finish. fields.
      by rewrite Hph.
Qed.

Lemma run_events_connect s evs s' :
  connect_inv s → run_events s evs = Some s' → connect_inv s'.
Proof.
  revert s. induction evs as [|ev evs IH]; intros s HC; simpl.
  - by intros [= <-].
  - destruct (step s ev) as [s1|] eqn:Hstep; [|done].
    apply IH. by eapply step_connect.
Qed.

Lemma run_connect self v s0 : run self v = inr s0 → connect_inv s0.
Proof.
  unfold run. destruct (negb (checkArray _)); [done|].
  destruct (RemoteClient.getConnectionOptions_start self) as [opts|path] eqn:Hstart;
    intros [= <-]; unfold connect_inv; fields.
  - eauto.
  - unfold RemoteClient.getConnectionOptions_start in Hstart.
    destruct (truthy (RemoteClient._privateKey self)) eqn:Hk; [|done].
    simpl in Hstart. destruct (truthy (RemoteClient._privateKeyData self)); [done|].
    by injection Hstart as <-.
Qed.

Lemma step_readFile_calls s ev s' :
  step s ev = Some s' → readFile_calls s' = readFile_calls s.
Proof.
  intros Hstep. destruct ev; cbn [SshClient.step] in Hstep.
  - destruct (phase s); simplify_eq. unfold on_readFile. by destruct r.
  - by destruct (phase s); simplify_eq.
  - case_match; simplify_eq. unfold on_error. fields. by destruct (phase s).
  - case_match; simplify_eq. unfold on_continue.
    destruct (_finishMethod s); [|done]. fields.
    by destruct (resolve_command_frame n s) as (_ & _ & _ & _ & _ & _ & ->).
  - destruct (channel s) as [|e|]; simplify_eq. unfold on_exec_callback.
    destruct err; [|done].
    match goal with |- readFile_calls (reject_command ?i ?t) = _ =>
      by destruct (reject_command_frame i t) as (_ & _ & _ & _ & _ & _ & ->)
    end.
  - by destruct (channel s); simplify_eq.
  - by destruct (channel s); simplify_eq.
  - destruct (channel s) as [| |e r]; simplify_eq. unfold on_close.
    destruct (negb (is_zero code)); [|destruct (callNext e)].
    + match goal with |- readFile_calls (reject_command ?i ?t) = _ =>
        by destruct (reject_command_frame i t) as (_ & _ & _ & _ & _ & _ & ->)
      end.
    + match goal with |- readFile_calls (resolve_command ?i ?t) = _ =>
        by destruct (resolve_command_frame i t) as (_ & _ & _ & _ & _ & _ & ->)
      end.
    + done.
  - simplify_eq. unfold on_tick. destruct (phase s); try done.
    by destruct (commands s !! i).
Qed.

Lemma run_events_readFile_calls s evs s' :
  run_events s evs = Some s' → readFile_calls s' = readFile_calls s.
Proof.
  revert s. induction evs as [|ev evs IH]; intros s; simpl.
  - by intros [= <-].
  - destruct (step s ev) as [s1|] eqn:Hstep; [|done]. intros Hrun.
    rewrite (IH _ Hrun). by eapply step_readFile_calls.
Qed.

(** X14: while no client exists [connect] has not been called; once one
    exists it has been called exactly once, with the options that
    [getConnectionOptions] resolves for the instance.  The key is read at
    most once per [run]. *)
Theorem connect_is_called_once_with_resolved_options
    (self : RemoteClient.t) (v : Value) (s0 : State) (evs : list Event) (s : State) :
  run self v = inr s0 → run_events s0 evs = Some s →
  (has_client s = false → connect_calls s = []) ∧
  (has_client s = true →
     ∃ connOpts, connect_calls s = [connOpts] ∧
       RemoteClient.getConnectionOptions_start (this s)
         = RemoteClient.Ready connOpts) ∧
  length (readFile_calls s) ≤ 1.
Proof.
  intros Hrun Hevs.
  pose proof (run_events_connect _ _ _ (run_connect _ _ _ Hrun) Hevs) as HC.
  unfold connect_inv, has_client in *.
  assert (Hreads : length (readFile_calls s) ≤ 1).
  { rewrite (run_events_readFile_calls _ _ _ Hevs).
    revert Hrun. unfold run. destruct (negb (checkArray _)); [done|].
    destruct (RemoteClient.getConnectionOptions_start self);
      intros [= <-]; simpl; lia. }
  split; [|split; [|done]].
  - destruct (phase s); try done; by destruct HC.
  - destruct (phase s); try done.
Qed.

(** X15: when [run] has loaded the private key, the key is cached on the
    instance: the session is connected with the loaded bytes, and a later
    [run] on the instance connects with the same options at once, without
    reading the key again. *)
Theorem key_loaded_by_run_serves_next_run (self : RemoteClient.t) (v : Value)
    (s0 : State) (data : list Byte.byte) :
  run self v = inr s0 → phase s0 = LoadingKey →
  ∃ s1, step s0 (ReadFileDone (RemoteClient.ReadData data)) = Some s1 ∧
        phase s1 = Connecting ∧
        connect_calls s1 =
          [RemoteClient.with_key (RemoteClient.connectionOptions self)
             (RemoteClient._password self) (VBuf data)] ∧
        ∀ v' s0', run (this s1) v' = inr s0' →
          phase s0' = Connecting ∧ readFile_calls s0' = [] ∧
          connect_calls s0' = connect_calls s1.
Proof.
  intros Hrun Hph.
  destruct (run_loading _ _ _ Hrun Hph) as (Hthis & Hk & Hconn & _).
  exists (on_readFile (RemoteClient.ReadData data) s0).
  split; [cbn [SshClient.step]; by rewrite Hph|].
  unfold on_readFile. cbn [RemoteClient.readFile_callback]. fields.
  rewrite Hconn, Hthis. split; [done|]. split; [done|].
  intros v' s0'. unfold run. destruct (negb (checkArray _)); [done|].
  unfold RemoteClient.getConnectionOptions_start. simpl. rewrite Hk. simpl.
  intros [= <-]. fields. by destruct self.
Qed.

(** *** Waiting for ['continue'] *)

Lemma inv_paused s i :
  Inv s → _finishMethod s = Some i →
  phase s = Executing i ∧ channel s = Idle ∧ exec_returns i = false ∧
  length (exec_calls s) = S i ∧ unresolved (returned s).
Proof.
  intros [_ _ Hp] Hf. unfold phase_inv, pristine, untallied in Hp.
  destruct (phase s); try by (destruct_and!; congruence).
  destruct Hp as (Hlen & _ & [_ Hun] & Hch).
  destruct (channel s); try by (destruct_and!; congruence).
  destruct Hch as (_ & Hf' & Hret). rewrite Hf in Hf'. injection Hf' as ->. done.
Qed.

Lemma step_paused s ev s' i :
  Inv s → _finishMethod s = Some i → is_continue ev = false →
  step s ev = Some s' →
  _finishMethod s' = Some i ∧ exec_calls s' = exec_calls s.
Proof.
  intros HI Hf Hnc Hstep.
  destruct (inv_paused _ _ HI Hf) as (Hph & Hch & _).
  destruct ev; try done; cbn [SshClient.step] in Hstep;
    rewrite ?Hph, ?Hch in Hstep; simplify_eq.
  - case_match; simplify_eq. unfold on_error. fields. by rewrite Hph.
  - unfold on_tick. by rewrite Hph.
Qed.

Lemma run_events_paused s evs s' i :
  Inv s → _finishMethod s = Some i →
  Forall (λ ev, is_continue ev = false) evs →
  run_events s evs = Some s' →
  _finishMethod s' = Some i ∧ exec_calls s' = exec_calls s ∧ Inv s'.
Proof.
  revert s. induction evs as [|ev evs IH]; intros s HI Hf Hnc; simpl.
  - by intros [= <-].
  - destruct (step s ev) as [s1|] eqn:Hstep; [|done]. intros Hrun.
    apply Forall_cons in Hnc as [Hev Hnc].
    destruct (step_paused _ _ _ _ HI Hf Hev Hstep) as [Hf1 Hex1].
    destruct (IH s1) as (? & ? & ?); [by eapply step_inv|done..|].
    split; [done|]. split; [congruence|done].
Qed.

(** X16: while the engine waits for a ['continue'], nothing else makes it
    go on: whatever other events arrive, the command it waits after stays
    the last one submitted and the promise is not resolved. *)
Theorem only_continue_resumes (self : RemoteClient.t) (v : Value)
    (s0 : State) (evs : list Event) (s : State) (i : nat)
    (evs' : list Event) (s' : State) :
  run self v = inr s0 → run_events s0 evs = Some s →
  _finishMethod s = Some i →
  Forall (λ ev, is_continue ev = false) evs' →
  run_events s evs' = Some s' →
  phase s' = Executing i ∧ length (exec_calls s') = S i ∧
  exec_calls s' = exec_calls s ∧ ∀ summary, returned s' ≠ Resolved summary.
Proof.
  intros Hrun Hevs Hf Hnc Hevs'.
  pose proof (reachable_inv exec_returns _ _ _ _ _ Hrun Hevs) as HI.
  destruct (run_events_paused _ _ _ _ HI Hf Hnc Hevs') as (Hf' & Hex & HI').
  destruct (inv_paused _ _ HI' Hf') as (Hph & _ & _ & Hlen & Hun).
  repeat split; try done. intros summary Hres. by rewrite Hres in Hun.
Qed.

(** X17: a ['continue'] that arrives while the command is still running is
    not remembered.  If [exec] returned [false], the ['continue'] comes
    first and the stream then closes with exit code 0, the engine waits:
    without another ['continue'] no further command is submitted and the
    promise is not resolved. *)
Theorem early_continue_is_lost (self : RemoteClient.t) (v : Value)
    (s0 : State) (evs : list Event) (s : State) (e : Executor) (r : nat)
    (evs' : list Event) (s' : State) :
  run self v = inr s0 → run_events s0 evs = Some s →
  channel s = Open e r → exec_returns (index e) = false →
  Forall (λ ev, is_continue ev = false) evs' →
  run_events s (ClientContinue :: StreamClose (VNum 0) :: evs') = Some s' →
  phase s' = Executing (index e) ∧ exec_calls s' = exec_calls s ∧
  ∀ summary, returned s' ≠ Resolved summary.
Proof.
  intros Hrun Hevs Hch Hret Hnc Hevs'.
  pose proof (reachable_inv exec_returns _ _ _ _ _ Hrun Hevs) as HI.
  destruct (inv_open exec_returns _ _ _ HI Hch) as (Hph & -> & _ & _ & Hcn).
  assert (Hf : _finishMethod s = None).
  { destruct HI as [_ _ Hp]. unfold phase_inv in Hp. rewrite Hph, Hch in Hp.
    by destruct Hp as (_ & _ & _ & _ & _ & _ & _ & ?). }
  rewrite run_events_cons in Hevs'.
  assert (Hc : step s ClientContinue = Some s).
  { cbn [SshClient.step]. unfold has_client, on_continue. by rewrite Hph, Hf. }
  rewrite Hc, run_events_cons in Hevs'.
  destruct (step s (StreamClose (VNum 0))) as [s2|] eqn:Hclose; [|done].
  pose proof (step_inv exec_returns _ _ _ HI Hclose) as HI2.
  assert (Hs2 : _finishMethod s2 = Some (index e) ∧ exec_calls s2 = exec_calls s).
  { cbn [SshClient.step] in Hclose. rewrite Hch in Hclose. injection Hclose as <-.
    unfold on_close. cbn [is_zero negb]. rewrite Hcn, Hret. done. }
  destruct Hs2 as [Hf2 Hex2].
  destruct (run_events_paused _ _ _ _ HI2 Hf2 Hnc Hevs') as (Hf' & Hex & HI').
  destruct (inv_paused _ _ HI' Hf') as (Hph' & _ & _ & _ & Hun).
  split; [done|]. split; [congruence|].
  intros summary Hres. by rewrite Hres in Hun.
Qed.

(** *** Output *)

Lemma with_output_nil r : with_output [] r = r.
Proof. by destruct r. Qed.

Lemma run_output s e ok cur out :
  channel s = Open e (length ok) → cmd_results s = ok ++ [cur] →
  Forall (λ ev, is_output ev = true) out →
  run_events s out = Some (set_results (ok ++ [with_output out cur]) s).
Proof.
  revert s cur. induction out as [|ev out IH]; intros s cur Hch Hrs Hout.
  - simpl. rewrite with_output_nil, <- Hrs. by destruct s.
  - apply Forall_cons in Hout as [Hev Hout].
    rewrite run_events_cons.
    destruct ev; try done; cbn [SshClient.step]; rewrite Hch.
    + unfold on_data. rewrite Hrs, alter_last.
      erewrite IH; [|done..]. done.
    + unfold on_stderr_data. rewrite Hrs, alter_last.
      erewrite IH; [|done..]. done.
Qed.

(** X18: while a stream is open, the chunks that arrive on standard output
    are appended to [stdout] in the order of arrival and those of standard
    error to [stderr], however the two are interleaved; nothing else of the
    state changes. *)
Theorem output_accumulates_in_arrival_order (self : RemoteClient.t) (v : Value)
    (s0 : State) (evs : list Event) (s : State) (e : Executor) (r : nat)
    (out : list Event) :
  run self v = inr s0 → run_events s0 evs = Some s →
  channel s = Open e r →
  Forall (λ ev, is_output ev = true) out →
  ∃ ok cur, cmd_results s = ok ++ [cur] ∧
    run_events s out = Some (set_results (ok ++ [with_output out cur]) s).
Proof.
  intros Hrun Hevs Hch Hout.
  pose proof (reachable_inv exec_returns _ _ _ _ _ Hrun Hevs) as HI.
  destruct (inv_open exec_returns _ _ _ HI Hch) as (_ & -> & Hlen & _).
  destruct (snoc_of_length _ _ Hlen) as (ok & cur & Hrs & Hlok).
  exists ok, cur. split; [done|]. rewrite <- Hlok in Hch.
  by eapply run_output.
Qed.

(** *** Sessions in which every command succeeds *)

Lemma expected_results_all_succeed cmds script :
  length script = length cmds → Forall (λ b, succeeds b = true) script →
  command <$> expected_results cmds script = cmds ∧
  Forall succeeded (expected_results cmds script).
Proof.
  revert script. induction cmds as [|cmd cmds IH]; intros [|b script] Hlen Hall;
    try done.
  apply Forall_cons in Hall as [Hb Hall]. simpl in Hlen.
  destruct (IH script) as [IH1 IH2]; [lia|done|].
  cbn [expected_results]. rewrite Hb. split.
  - rewrite fmap_cons, IH1. by destruct b.
  - apply Forall_cons. split; [|done].
    destruct b; [done|]. exact Hb.
Qed.

(** X19: if the session is ready and every command is started and exits
    with code 0, all the commands are submitted, in the order of the list,
    the session is ended, and the promise resolves with a summary that
    counts every command as a success. *)
Theorem all_commands_succeed (self : RemoteClient.t) (v : Value)
    (s0 : State) (evs : list Event) (s : State) (script : list Behaviour) :
  run self v = inr s0 → run_events s0 evs = Some s →
  phase s = Next 0 → returned s = Pending →
  length script = length (commands s) →
  Forall (λ b, succeeds b = true) script →
  ∃ s' summary,
    run_events s (session_events exec_returns script 0) = Some s' ∧
    returned s' = Resolved summary ∧
    successCount summary = commandCount summary ∧
    failureCount summary = 0 ∧
    command <$> results summary = commands s ∧
    exec_calls s' = commands s ∧
    end_calls s' = S (end_calls s).
Proof.
  intros Hrun Hevs Hph Hpend Hlen Hall.
  pose proof (reachable_inv exec_returns _ _ _ _ _ Hrun Hevs) as [_ _ Hp].
  unfold phase_inv, untallied in Hp. rewrite Hph in Hp.
  destruct Hp as (Hrs0 & Hex0 & _ & _ & _ & Hfresh & _).
  apply nil_length_inv in Hrs0, Hex0.
  destruct (serve_session exec_returns script (commands s) s 0)
    as (s' & Hserve & Hrs & Hex & (_ & _ & Hend & Hres)); [done| |done..|].
  { by rewrite Hex0. }
  destruct (expected_results_all_succeed _ _ Hlen Hall) as [Hcmds Hsucc].
  rewrite Hrs0 in Hrs. rewrite Hex0, Hcmds in Hex. simpl in Hrs, Hex.
  rewrite Hpend, Hfresh, Hrs, tally_fresh in Hres.
  eexists s', _. split; [done|]. split; [exact Hres|]. simpl.
  destruct (count_all_succeeded _ Hsucc) as [-> ->]. simpl.
  assert (length (expected_results (commands s) script) = length (commands s)).
  { by rewrite <- Hcmds at 2; rewrite length_fmap. }
  repeat split; try done.
Qed.
End Transport.

Ltac evaluated := vm_compute; reflexivity.

Lemma summary_success_iff_exit_zero_witness :
  run password_client build_commands = inr build_start ∧
  run_events always_wait build_start build_events
    = Some (build_state build_events) ∧
  returned (build_state build_events)
    = Resolved (summary_of 3 (cmd_results (build_state build_events))) ∧
  failed_test ∈ results (summary_of 3 (cmd_results (build_state build_events))) ∧
  (success failed_test = true ↔ exitCode failed_test = VNum 0) ∧
  (success failed_test = true ↔ error failed_test = None).
Proof.
  assert (Hrun : run password_client build_commands = inr build_start)
    by evaluated.
  assert (Hevs : run_events always_wait build_start build_events
                 = Some (build_state build_events)) by evaluated.
  assert (Hres : returned (build_state build_events)
                 = Resolved (summary_of 3 (cmd_results (build_state build_events))))
    by evaluated.
  assert (Hin : failed_test
                ∈ results (summary_of 3 (cmd_results (build_state build_events)))).
  { apply (list_elem_of_lookup_2 _ 1). evaluated. }
  split; [exact Hrun|]. split; [exact Hevs|]. split; [exact Hres|].
  split; [exact Hin|].
  exact (summary_success_iff_exit_zero always_wait password_client build_commands
           build_start build_events (build_state build_events) _ failed_test
           Hrun Hevs Hres Hin).
Defined.

Lemma summary_counts_at_most_one_failure_witness :
  run password_client build_commands = inr build_start ∧
  run_events always_wait build_start build_events
    = Some (build_state build_events) ∧
  returned (build_state build_events)
    = Resolved (summary_of 3 (cmd_results (build_state build_events))) ∧
  failureCount (summary_of 3 (cmd_results (build_state build_events))) ≤ 1.
Proof.
  assert (Hrun : run password_client build_commands = inr build_start)
    by evaluated.
  assert (Hevs : run_events always_wait build_start build_events
                 = Some (build_state build_events)) by evaluated.
  assert (Hres : returned (build_state build_events)
                 = Resolved (summary_of 3 (cmd_results (build_state build_events))))
    by evaluated.
  split; [exact Hrun|]. split; [exact Hevs|]. split; [exact Hres|].
  exact (proj1 (summary_counts_at_most_one_failure always_wait password_client
                  build_commands build_start build_events
                  (build_state build_events) _ Hrun Hevs Hres)).
Defined.

Lemma one_command_at_a_time_witness :
  run password_client build_commands = inr build_start ∧
  run_events always_wait build_start build_events
    = Some (build_state build_events) ∧
  length (exec_calls (build_state build_events))
    ≤ S (length (cmd_results (build_state build_events))) ∧
  length (cmd_results (build_state build_events))
    ≤ length (exec_calls (build_state build_events)).
Proof.
  assert (Hrun : run password_client build_commands = inr build_start)
    by evaluated.
  assert (Hevs : run_events always_wait build_start build_events
                 = Some (build_state build_events)) by evaluated.
  split; [exact Hrun|]. split; [exact Hevs|].
  destruct (one_command_at_a_time always_wait password_client build_commands
              build_start build_events (build_state build_events) Hrun Hevs)
    as (Hle & Hge & _).
  exact (conj Hle Hge).
Defined.

Lemma connection_error_before_ready_witness :
  run password_client build_commands = inr build_start ∧
  run_events always_wait build_start [] = Some build_start ∧
  phase build_start = Connecting ∧
  ∃ s1, step always_wait build_start (ClientError (Error "ECONNREFUSED"))
          = Some s1 ∧
        returned s1 = Rejected (Error "ECONNREFUSED") ∧ end_calls s1 = 1.
Proof.
  assert (Hrun : run password_client build_commands = inr build_start)
    by evaluated.
  assert (Hevs : run_events always_wait build_start [] = Some build_start)
    by reflexivity.
  assert (Hph : phase build_start = Connecting) by evaluated.
  split; [exact Hrun|]. split; [exact Hevs|]. split; [exact Hph|].
  destruct (connection_error_before_ready always_wait password_client
              build_commands build_start [] build_start (Error "ECONNREFUSED")
              Hrun Hevs Hph) as (s1 & Hstep & Hret & Hend & _).
  exists s1. exact (conj Hstep (conj Hret Hend)).
Defined.

Lemma key_read_failure_opens_no_session_witness :
  run key_client build_commands = inr key_start ∧
  phase key_start = LoadingKey ∧
  readFile_calls key_start = [RemoteClient._privateKey key_client] ∧
  ∃ s1, step always_wait key_start
          (ReadFileDone (RemoteClient.ReadError (Error "ENOENT"))) = Some s1 ∧
        returned s1 = Rejected (Error "ENOENT") ∧ connect_calls s1 = [].
Proof.
  assert (Hrun : run key_client build_commands = inr key_start) by evaluated.
  assert (Hph : phase key_start = LoadingKey) by evaluated.
  split; [exact Hrun|]. split; [exact Hph|].
  destruct (key_read_failure_opens_no_session always_wait key_client
              build_commands key_start (Error "ENOENT") Hrun Hph)
    as (Hreads & s1 & Hstep & Hret & Hconn & _).
  split; [exact Hreads|].
  exists s1. exact (conj Hstep (conj Hret Hconn)).
Defined.

Lemma resolved_summary_is_final_witness :
  run password_client build_commands = inr build_start ∧
  run_events always_wait build_start build_events
    = Some (build_state build_events) ∧
  returned (build_state build_events)
    = Resolved (summary_of 3 (cmd_results (build_state build_events))) ∧
  run_events always_wait (build_state build_events)
      [Tick; ClientError (Error "ECONNRESET")]
    = Some (build_state (build_events ++ [Tick; ClientError (Error "ECONNRESET")])) ∧
  returned (build_state (build_events ++ [Tick; ClientError (Error "ECONNRESET")]))
    = Resolved (summary_of 3 (cmd_results (build_state build_events))).
Proof.
  assert (Hrun : run password_client build_commands = inr build_start)
    by evaluated.
  assert (Hevs : run_events always_wait build_start build_events
                 = Some (build_state build_events)) by evaluated.
  assert (Hres : returned (build_state build_events)
                 = Resolved (summary_of 3 (cmd_results (build_state build_events))))
    by evaluated.
  assert (Hevs' : run_events always_wait (build_state build_events)
                    [Tick; ClientError (Error "ECONNRESET")]
                  = Some (build_state
                            (build_events ++ [Tick; ClientError (Error "ECONNRESET")])))
    by evaluated.
  split; [exact Hrun|]. split; [exact Hevs|]. split; [exact Hres|].
  split; [exact Hevs'|].
  exact (proj1 (resolved_summary_is_final always_wait password_client
                  build_commands build_start build_events
                  (build_state build_events) _ _ _ Hrun Hevs Hres Hevs')).
Defined.

Lemma connect_is_called_once_with_resolved_options_witness :
  run password_client build_commands = inr build_start ∧
  run_events always_wait build_start build_events
    = Some (build_state build_events) ∧
  has_client (build_state build_events) = true ∧
  ∃ connOpts, connect_calls (build_state build_events) = [connOpts] ∧
    RemoteClient.getConnectionOptions_start (this (build_state build_events))
      = RemoteClient.Ready connOpts.
Proof.
  assert (Hrun : run password_client build_commands = inr build_start)
    by evaluated.
  assert (Hevs : run_events always_wait build_start build_events
                 = Some (build_state build_events)) by evaluated.
  assert (Hcl : has_client (build_state build_events) = true) by evaluated.
  split; [exact Hrun|]. split; [exact Hevs|]. split; [exact Hcl|].
  destruct (connect_is_called_once_with_resolved_options always_wait
              password_client build_commands build_start build_events
              (build_state build_events) Hrun Hevs) as (_ & Hconn & _).
  exact (Hconn Hcl).
Defined.

Lemma key_loaded_by_run_serves_next_run_witness :
  run key_client build_commands = inr key_start ∧
  phase key_start = LoadingKey ∧
  ∃ s1, step always_wait key_start
          (ReadFileDone (RemoteClient.ReadData key_bytes)) = Some s1 ∧
        phase s1 = Connecting ∧
        connect_calls s1 =
          [RemoteClient.with_key (RemoteClient.connectionOptions key_client)
             (RemoteClient._password key_client) (VBuf key_bytes)].
Proof.
  assert (Hrun : run key_client build_commands = inr key_start) by evaluated.
  assert (Hph : phase key_start = LoadingKey) by evaluated.
  split; [exact Hrun|]. split; [exact Hph|].
  destruct (key_loaded_by_run_serves_next_run always_wait key_client
              build_commands key_start key_bytes Hrun Hph)
    as (s1 & Hstep & Hph1 & Hconn & _).
  exists s1. exact (conj Hstep (conj Hph1 Hconn)).
Defined.

Lemma only_continue_resumes_witness :
  run password_client build_commands = inr build_start ∧
  run_events always_wait build_start make_exited
    = Some (build_state make_exited) ∧
  _finishMethod (build_state make_exited) = Some 0 ∧
  Forall (λ ev, is_continue ev = false) [Tick; Tick] ∧
  run_events always_wait (build_state make_exited) [Tick; Tick]
    = Some (build_state (make_exited ++ [Tick; Tick])) ∧
  phase (build_state (make_exited ++ [Tick; Tick])) = Executing 0 ∧
  length (exec_calls (build_state (make_exited ++ [Tick; Tick]))) = 1.
Proof.
  assert (Hrun : run password_client build_commands = inr build_start)
    by evaluated.
  assert (Hevs : run_events always_wait build_start make_exited
                 = Some (build_state make_exited)) by evaluated.
  assert (Hf : _finishMethod (build_state make_exited) = Some 0) by evaluated.
  assert (Hnc : Forall (λ ev, is_continue ev = false) [Tick; Tick]).
  { repeat constructor. }
  assert (Hevs' : run_events always_wait (build_state make_exited) [Tick; Tick]
                  = Some (build_state (make_exited ++ [Tick; Tick])))
    by evaluated.
  split; [exact Hrun|]. split; [exact Hevs|]. split; [exact Hf|].
  split; [exact Hnc|]. split; [exact Hevs'|].
  destruct (only_continue_resumes always_wait password_client build_commands
              build_start make_exited (build_state make_exited) 0 [Tick; Tick]
              _ Hrun Hevs Hf Hnc Hevs') as (Hph & Hlen & _).
  exact (conj Hph Hlen).
Defined.

Lemma early_continue_is_lost_witness :
  run password_client build_commands = inr build_start ∧
  run_events always_wait build_start make_running
    = Some (build_state make_running) ∧
  channel (build_state make_running)
    = Open {| index := 0; exec_command := VStr "make"; callNext := false |} 0 ∧
  always_wait 0 = false ∧
  Forall (λ ev, is_continue ev = false) [Tick] ∧
  run_events always_wait (build_state make_running)
      [ClientContinue; StreamClose (VNum 0); Tick]
    = Some (build_state
              (make_running ++ [ClientContinue; StreamClose (VNum 0); Tick])) ∧
  phase (build_state
           (make_running ++ [ClientContinue; StreamClose (VNum 0); Tick]))
    = Executing 0 ∧
  exec_calls (build_state
                (make_running ++ [ClientContinue; StreamClose (VNum 0); Tick]))
    = exec_calls (build_state make_running).
Proof.
  assert (Hrun : run password_client build_commands = inr build_start)
    by evaluated.
  assert (Hevs : run_events always_wait build_start make_running
                 = Some (build_state make_running)) by evaluated.
  assert (Hch : channel (build_state make_running)
                = Open {| index := 0; exec_command := VStr "make";
                          callNext := false |} 0) by evaluated.
  assert (Hret : always_wait 0 = false) by evaluated.
  assert (Hnc : Forall (λ ev, is_continue ev = false) [Tick]).
  { repeat constructor. }
  assert (Hevs' : run_events always_wait (build_state make_running)
                    [ClientContinue; StreamClose (VNum 0); Tick]
                  = Some (build_state
                            (make_running ++
                             [ClientContinue; StreamClose (VNum 0); Tick])))
    by evaluated.
  split; [exact Hrun|]. split; [exact Hevs|]. split; [exact Hch|].
  split; [exact Hret|]. split; [exact Hnc|]. split; [exact Hevs'|].
  destruct (early_continue_is_lost always_wait password_client build_commands
              build_start make_running (build_state make_running) _ 0 [Tick] _
              Hrun Hevs Hch Hret Hnc Hevs') as (Hph & Hex & _).
  exact (conj Hph Hex).
Defined.

Lemma output_accumulates_in_arrival_order_witness :
  run password_client build_commands = inr build_start ∧
  run_events always_wait build_start make_running
    = Some (build_state make_running) ∧
  channel (build_state make_running)
    = Open {| index := 0; exec_command := VStr "make"; callNext := false |} 0 ∧
  Forall (λ ev, is_output ev = true) make_output ∧
  ∃ ok cur, cmd_results (build_state make_running) = ok ++ [cur] ∧
    run_events always_wait (build_state make_running) make_output
      = Some (set_results (ok ++ [with_output make_output cur])
                (build_state make_running)).
Proof.
  assert (Hrun : run password_client build_commands = inr build_start)
    by evaluated.
  assert (Hevs : run_events always_wait build_start make_running
                 = Some (build_state make_running)) by evaluated.
  assert (Hch : channel (build_state make_running)
                = Open {| index := 0; exec_command := VStr "make";
                          callNext := false |} 0) by evaluated.
  assert (Hout : Forall (λ ev, is_output ev = true) make_output).
  { repeat constructor. }
  split; [exact Hrun|]. split; [exact Hevs|]. split; [exact Hch|].
  split; [exact Hout|].
  exact (output_accumulates_in_arrival_order always_wait password_client
           build_commands build_start make_running (build_state make_running)
           _ 0 make_output Hrun Hevs Hch Hout).
Defined.

Lemma all_commands_succeed_witness :
  run password_client build_commands = inr build_start ∧
  run_events always_wait build_start [ClientReady]
    = Some (build_state [ClientReady]) ∧
  phase (build_state [ClientReady]) = Next 0 ∧
  returned (build_state [ClientReady]) = Pending ∧
  length green_script = length (commands (build_state [ClientReady])) ∧
  Forall (λ b, succeeds b = true) green_script ∧
  ∃ s' summary,
    run_events always_wait (build_state [ClientReady])
      (session_events always_wait green_script 0) = Some s' ∧
    returned s' = Resolved summary ∧
    successCount summary = commandCount summary ∧
    failureCount summary = 0.
Proof.
  assert (Hrun : run password_client build_commands = inr build_start)
    by evaluated.
  assert (Hevs : run_events always_wait build_start [ClientReady]
                 = Some (build_state [ClientReady])) by evaluated.
  assert (Hph : phase (build_state [ClientReady]) = Next 0) by evaluated.
  assert (Hret : returned (build_state [ClientReady]) = Pending) by evaluated.
  assert (Hlen : length green_script = length (commands (build_state [ClientReady])))
    by evaluated.
  assert (Hall : Forall (λ b, succeeds b = true) green_script).
  { repeat constructor. }
  split; [exact Hrun|]. split; [exact Hevs|]. split; [exact Hph|].
  split; [exact Hret|]. split; [exact Hlen|]. split; [exact Hall|].
  destruct (all_commands_succeed always_wait password_client build_commands
              build_start [ClientReady] (build_state [ClientReady]) green_script
              Hrun Hevs Hph Hret Hlen Hall)
    as (s' & summary & Hserve & Hres & Hsucc & Hfail & _).
  exists s', summary. exact (conj Hserve (conj Hres (conj Hsucc Hfail))).
Defined.
End SshClientMore.
